(** * voice2value: [tools/run_pipeline.py]

    A shallow embedding of the helper script that merges the example audio
    files of a directory into [merged.wav], writes the HuggingFace token to
    [.env] and starts the pipeline, together with the properties its
    specification states about it.

    The directory is a finite map from entry names to nodes and the
    script's statements are computations in a small state-and-exception
    monad over that map.  What the script takes from outside is a
    parameter of the development: pydub's decoder and wav encoder, the
    order in which the operating system lists a directory, and the
    pipeline process.  vanpy's concatenation helper, which the script
    calls but which is not part of the sources at hand, is modelled from
    the specification. *)

From Stdlib Require Import Ascii String.
From stdpp Require Import gmap strings list fin_maps.

Open Scope string_scope.
Open Scope list_scope.

(** ** Paths

    Every path the script handles is [examples_dir / name]; a path is
    modelled by its final component [name].  [suffix] and [with_suffix]
    follow [pathlib.PurePath]:

      suffix:       i = name.rfind('.')
                    name[i:] if 0 < i < len(name) - 1, else the empty string
      stem:         name[:i] under the same condition, else name
      with_suffix:  ValueError if name is empty,
                    name + suffix                     if the old suffix is empty
                    name[:-len(old_suffix)] + suffix  otherwise
                    (the new suffix is checked as well; the script passes
                    ".wav", which is accepted)

    [rsplit_dot] cuts a name at its last dot, so that [i] above is the
    length of the first half. *)
Module Path.

Fixpoint rsplit_dot (name : string) : option (string * string) :=
  match name with
  | EmptyString => None
  | String c rest =>
      match rsplit_dot rest with
      | Some (stem, ext) => Some (String c stem, ext)
      | None => if Ascii.eqb c "."%char then Some (EmptyString, rest) else None
      end
  end.

Definition suffix (name : string) : string :=
  match rsplit_dot name with
  | Some (String c stem, String e ext) => String "."%char (String e ext)
  | _ => EmptyString
  end.

Definition stem (name : string) : string :=
  match rsplit_dot name with
  | Some (String c stem, String e ext) => String c stem
  | _ => name
  end.

Definition with_suffix (name sfx : string) : option string :=
  match name with
  | EmptyString => None
  | _ => Some (stem name +:+ sfx)
  end.

(** [str.lower] on the ASCII range; bytes outside [A-Z] are unchanged. *)
Definition lower_ascii (c : Ascii.ascii) : Ascii.ascii :=
  let n := nat_of_ascii c in
  if (65 <=? n)%nat && (n <=? 90)%nat then ascii_of_nat (n + 32) else c.

Fixpoint lower (s : string) : string :=
  match s with
  | EmptyString => EmptyString
  | String c rest => String (lower_ascii c) (lower rest)
  end.

(** The test [f.suffix.lower() != ".wav"] of the conversion loop, negated. *)
Definition is_wav (name : string) : bool :=
  String.eqb (lower (suffix name)) ".wav".

End Path.

(** ** Exceptions and the state monad

    The error taxonomy of the specification; [ValueError] is what
    [with_suffix] raises on an empty name. *)
Inductive error : Type :=
  | FilesystemError
  | DecodeError
  | ConcatenationError
  | ProcessError
  | ValueError.

Inductive result (A : Type) : Type :=
  | Ok (a : A)
  | Raise (e : error).
Arguments Ok {A} a.
Arguments Raise {A} e.

(** A statement run in state [St] returns normally or raises, and in both
    cases leaves a state behind: what an exception does not undo stays
    done. *)
Definition M (St A : Type) : Type := St → result A * St.

Definition ret {St A} (a : A) : M St A := λ s, (Ok a, s).

Definition raise {St A} (e : error) : M St A := λ s, (Raise e, s).

Definition bind {St A B} (m : M St A) (k : A → M St B) : M St B :=
  λ s, match m s with
       | (Ok a, s') => k a s'
       | (Raise e, s') => (Raise e, s')
       end.

(** [try: body finally: final].  The [finally] block runs on both exits of
    the body; an exception of the body propagates after it, unless the
    [finally] block itself raises. *)
Definition try_finally {St A} (body : M St A) (final : M St unit) : M St A :=
  λ s, match body s with
       | (r, s') =>
           match final s' with
           | (Ok _, s'') => (r, s'')
           | (Raise e, s'') => (Raise e, s'')
           end
       end.

Notation "'let!' x ':=' m 'in' k" := (bind m (λ x, k))
  (at level 10, x name, m at level 100, k at level 200).
Notation "m '>>' k" := (bind m (λ _, k))
  (at level 100, k at level 200, right associativity).

(** ** The directory *)
Inductive node (content : Type) : Type :=
  | File (data : content)
  | Dir.
Arguments File {content} data.
Arguments Dir {content}.

Definition file_at {content} (d : gmap string (node content)) (f : string) : bool :=
  match d !! f with
  | Some (File _) => true
  | _ => false
  end.

Definition newline : string := String "010"%char EmptyString.

Section Pipeline.

(** File contents and decoded audio, with pydub's [AudioSegment]:
    [from_file path bytes] is the segment decoded from a file at [path]
    holding [bytes] ([None]: the decoder gives up), [export_wav] the bytes
    [export(_, format="wav")] writes, [seg_empty] and [seg_add] are
    [AudioSegment.empty()] and [+]. *)
Context {content segment : Type}.
Variable from_file : string → content → option segment.
Variable export_wav : segment → content.
Variable seg_empty : segment.
Variable seg_add : segment → segment → segment.

Local Abbreviation dir := (gmap string (node content)).

(** [os.listdir]: the names of the entries of the directory, each once,
    in an order the model does not fix. *)
Variable listdir : dir → list string.

(** *** File operations *)

(** [Path.iterdir] lists the directory when the loop starts. *)
Definition iterdir : M dir (list string) := λ d, (Ok (listdir d), d).

Definition is_file (f : string) : M dir bool := λ d, (Ok (file_at d f), d).

Definition exists_ (f : string) : M dir bool :=
  λ d, (Ok (match d !! f with Some _ => true | None => false end), d).

(** [Path.unlink]: removes a regular file; raises on a missing path and
    on a directory. *)
Definition unlink (f : string) : M dir unit :=
  λ d, match d !! f with
       | Some (File _) => (Ok tt, delete f d)
       | _ => (Raise FilesystemError, d)
       end.

Definition read_bytes (f : string) : M dir content :=
  λ d, match d !! f with
       | Some (File c) => (Ok c, d)
       | _ => (Raise FilesystemError, d)
       end.

(** Opening a path for writing creates or truncates a regular file and
    raises on a directory. *)
Definition write_bytes (f : string) (c : content) : M dir unit :=
  λ d, match d !! f with
       | Some Dir => (Raise FilesystemError, d)
       | _ => (Ok tt, <[f := File c]> d)
       end.

Definition AudioSegment_from_file (f : string) : M dir segment :=
  let! c := read_bytes f in
  match from_file f c with
  | Some seg => ret seg
  | None => raise DecodeError
  end.

Definition export (seg : segment) (out : string) : M dir unit :=
  write_bytes out (export_wav seg).

(** *** [merge_audio_files] *)

Definition output : string := "merged.wav".

(** The body of the [try] block: decode [f], write it as wav. *)
Definition convert (f wav_path : string) : M dir unit :=
  let! seg := AudioSegment_from_file f in
  export seg wav_path.

(** One iteration of the conversion loop on the entry [f], with the list
    [wav_files] built so far. *)
Definition visit (f : string) (wav_files : list string) : M dir (list string) :=
  let! regular := is_file f in
  if negb (Path.is_wav f) && regular then
    match Path.with_suffix f ".wav" with
    | None => raise ValueError
    | Some wav_path =>
        try_finally (convert f wav_path) (unlink f) >>
        ret (wav_files ++ [wav_path])
    end
  else if regular then ret (wav_files ++ [f])
  else ret wav_files.

(** The iterations that return: [visited d f W W1 d1] when [visit f W]
    takes the directory [d] to [d1] and the list [W] to [W1]. *)
Inductive visited (d : dir) (f : string) (W : list string) :
    list string → dir → Prop :=
  | visited_skip :
      file_at d f = false → visited d f W W d
  | visited_wav :
      file_at d f = true → Path.is_wav f = true →
      visited d f W (W ++ [f]) d
  | visited_convert w c seg :
      Path.is_wav f = false → Path.with_suffix f ".wav" = Some w →
      d !! f = Some (File c) → from_file f c = Some seg →
      d !! w ≠ Some Dir →
      visited d f W (W ++ [w]) (delete f (<[w := File (export_wav seg)]> d)).

(** The name the loop records in [wav_files] for a regular file [f]:
    [f] itself when it has a wav name, [f.with_suffix(".wav")] otherwise. *)
Definition wav_name (f : string) : string :=
  if Path.is_wav f then f else Path.stem f +:+ ".wav".

(** The loop over the entries [iterdir] yielded. *)
Fixpoint normalize (entries wav_files : list string) : M dir (list string) :=
  match entries with
  | [] => ret wav_files
  | f :: rest =>
      let! wav_files' := visit f wav_files in
      normalize rest wav_files'
  end.

Fixpoint load_all (names : list string) : M dir (list segment) :=
  match names with
  | [] => ret []
  | f :: rest =>
      let! seg := AudioSegment_from_file f in
      let! segs := load_all rest in
      ret (seg :: segs)
  end.

(** The files [concat_audio_files_in_dir] reads: the regular files of
    the directory in the target format, in listing order. *)
Definition concat_inputs (d : dir) : list string :=
  List.filter (λ f, file_at d f && Path.is_wav f) (listdir d).

Definition combine (segs : list segment) : segment :=
  foldl seg_add seg_empty segs.

(** Modelled from the spec: [vanpy.utils.utils.concat_audio_files_in_dir]
    is not among the sources.  The specification describes it as
    [concat_all(directory_path, output_path)], which iterates the
    directory's current contents, gathers all files now present in the
    target format, concatenates their audio in directory-scan order and
    writes one combined file at [output_path], overwriting any file
    there; it fails with a ConcatenationError if the directory contains
    zero eligible files or the write target is unwritable.  A file that
    does not decode raises the taxonomy's DecodeError. *)
Definition concat_audio_files_in_dir (out : string) : M dir unit :=
  λ d, match concat_inputs d with
       | [] => (Raise ConcatenationError, d)
       | inputs =>
           (let! segs := load_all inputs in
            λ d', match d' !! out with
                  | Some Dir => (Raise ConcatenationError, d')
                  | _ => export (combine segs) out d'
                  end) d
       end.

(** The final loop: [if f != output and f.exists(): f.unlink()]. *)
Fixpoint cleanup (wav_files : list string) : M dir unit :=
  match wav_files with
  | [] => ret tt
  | f :: rest =>
      let! present := exists_ f in
      (if negb (String.eqb f output) && present then unlink f else ret tt) >>
      cleanup rest
  end.

(** The entry at [n] once [cleanup wav_files] has returned from [d]:
    the names of the list other than [output] are gone, the rest is as
    it was. *)
Definition cleaned (wav_files : list string) (d : dir) (n : string) :
    option (node content) :=
  if decide (n ∈ wav_files ∧ n ≠ output) then None else d !! n.

(** Two directories that hold a regular file at [w] and are the same
    everywhere else. *)
Definition agree_except (w : string) (d1 d2 : dir) : Prop :=
  (∀ n, n ≠ w → d1 !! n = d2 !! n) ∧
  file_at d1 w = true ∧ file_at d2 w = true.

(** The outcomes of one computation on two directories: both raise the
    same error, or both return the same value, in directories that are
    equal or still differ at [w] only. *)
Definition same_outcome {A} (w : string) (rA rB : result A * dir) : Prop :=
  match rA, rB with
  | (Ok a, dA), (Ok b, dB) => a = b ∧ (dA = dB ∨ agree_except w dA dB)
  | (Raise eA, _), (Raise eB, _) => eA = eB
  | _, _ => False
  end.

Definition merge_audio_files : M dir unit :=
  let! entries := iterdir in
  let! wav_files := normalize entries [] in
  concat_audio_files_in_dir output >>
  cleanup wav_files.

(** A [merged.wav] of an earlier run overwritten before the merge and
    not read by it: what the old file holds makes no difference to the
    run. *)
Definition stale_merged_ignored : Prop :=
  ∀ (d : dir) c c', d !! output = Some (File c) →
                    merge_audio_files (<[output := File c']> d) = merge_audio_files d.

(** *** [main] *)

(** The repository root as far as [main] touches it: the examples
    directory and the [.env] file ([None]: no such file). *)
Record world : Type := World {
  speech_examples : dir;
  dot_env : option string
}.

Definition in_examples {A} (m : M dir A) : M world A :=
  λ w, match m (speech_examples w) with
       | (r, d) => (r, World d (dot_env w))
       end.

(** [a or b] on the values [os.getenv] returns: [None] and the empty
    string are falsy. *)
Definition truthy (v : option string) : bool :=
  match v with
  | Some (String _ _) => true
  | _ => false
  end.

Definition py_or (a b : option string) : option string :=
  if truthy a then a else b.

Definition hf_token (environ : gmap string string) : option string :=
  py_or (py_or (environ !! "HUGGINGFACE_ACCESS_TOKEN") (environ !! "hf"))
        (environ !! "HF_TOKEN").

(** [open(repo_root / ".env", "w")] followed by the single [write]. *)
Definition write_env (token : string) : M world unit :=
  λ w, (Ok tt,
        World (speech_examples w)
              (Some ("huggingface_ACCESS_TOKEN=" +:+ token +:+ newline))).

(** What [.env] holds when [main] comes to start the pipeline, [e] being
    what it held before: the token line when a token was found. *)
Definition env_after (environ : gmap string string) (e : option string) :
    option string :=
  match hf_token environ with
  | Some (String c t) =>
      Some ("huggingface_ACCESS_TOKEN=" +:+ String c t +:+ newline)
  | _ => e
  end.

(** The pipeline process is opaque.  [subprocess.run] is called without
    [env=], so the child inherits the environment of [main]: [run_py]
    gives, for that environment and the repository as [main] has left it,
    the exit status of the process and whatever it did to the
    repository. *)
Variable run_py : gmap string string → world → Z * world.

(** [subprocess.run(["python", "src/run.py"], check=True, cwd=repo_root)]
    under the environment [environ]. *)
Definition subprocess_run (environ : gmap string string) : M world unit :=
  λ w, match run_py environ w with
       | (rc, w') => if (rc =? 0)%Z then (Ok tt, w') else (Raise ProcessError, w')
       end.

Definition main (environ : gmap string string) : M world unit :=
  in_examples merge_audio_files >>
  (match hf_token environ with
   | Some (String c t) => write_env (String c t)
   | _ => ret tt
   end) >>
  subprocess_run environ.

End Pipeline.

(** ** A concrete instance

    A toy codec to run the model on: a file decodes when its first byte is
    the header [1], the rest being its samples; segments are sample lists.
    Directories are listed in the order of the map's own enumeration. *)
Module Demo.

Definition from_file (_ : string) (bytes : list nat) : option (list nat) :=
  match bytes with
  | 1 :: samples => Some samples
  | _ => None
  end.

Definition export_wav (samples : list nat) : list nat := 1 :: samples.

Definition listdir (d : gmap string (node (list nat))) : list string :=
  (map_to_list d).*1.

Definition merge_audio_files : M (gmap string (node (list nat))) unit :=
  merge_audio_files from_file export_wav [] (@app nat) listdir.

Definition no_pipeline (_ : gmap string string) (w : @world (list nat)) :
    Z * @world (list nat) := (0%Z, w).

(** A pipeline that exits with status 0 when HF_TOKEN is in its
    environment, with whatever value, and with status 1 otherwise. *)
Definition wants_token (environ : gmap string string) (w : @world (list nat)) :
    Z * @world (list nat) :=
  match environ !! "HF_TOKEN" with
  | Some _ => (0%Z, w)
  | None => (1%Z, w)
  end.

Definition main_with (pipeline : gmap string string → @world (list nat) →
                                   Z * @world (list nat))
    (environ : gmap string string) : M (@world (list nat)) unit :=
  main from_file export_wav [] (@app nat) listdir pipeline environ.

Definition main (environ : gmap string string) : M (@world (list nat)) unit :=
  main from_file export_wav [] (@app nat) listdir no_pipeline environ.

(** The scenario of the specification: one mp3, one wav. *)
Definition mixed : gmap string (node (list nat)) :=
  {[ "a.mp3" := File [1; 10]; "b.wav" := File [1; 20] ]}.

(** A directory with the merged file of an earlier run in it. *)
Definition rerun : gmap string (node (list nat)) :=
  {[ "a.wav" := File [1; 20]; "merged.wav" := File [1; 7] ]}.

(** Three mp3 files, the second of which does not decode. *)
Definition broken : gmap string (node (list nat)) :=
  {[ "a.mp3" := File [1; 10]; "b.mp3" := File [0; 20]; "c.mp3" := File [1; 7] ]}.

(** An mp3 and a wav of the same stem. *)
Definition clash : gmap string (node (list nat)) :=
  {[ "a.mp3" := File [1; 10]; "a.wav" := File [1; 20] ]}.

(** What the conversion loop leaves of the directories above. *)
Definition mixed_converted : gmap string (node (list nat)) :=
  {[ "a.wav" := File [1; 10]; "b.wav" := File [1; 20] ]}.

Definition broken_left : gmap string (node (list nat)) :=
  {[ "a.wav" := File [1; 10]; "c.wav" := File [1; 7] ]}.

Definition merged_only : gmap string (node (list nat)) :=
  {[ "merged.wav" := File [1; 10; 20] ]}.

Definition only_short_form : gmap string string := {[ "HF_TOKEN" := "abc123" ]}.

Definition empty_short_form : gmap string string := {[ "HF_TOKEN" := EmptyString ]}.

Definition empty_primary : gmap string string :=
  {[ "HUGGINGFACE_ACCESS_TOKEN" := EmptyString; "HF_TOKEN" := "abc123" ]}.

End Demo.

(** ** Paths *)

Example suffix_mp3 : Path.suffix "a.mp3" = ".mp3".
Proof. reflexivity. Qed.
Example suffix_two_dots : Path.suffix "a.tar.gz" = ".gz".
Proof. reflexivity. Qed.
Example suffix_hidden : Path.suffix ".hidden" = EmptyString.
Proof. reflexivity. Qed.
Example suffix_trailing_dot : Path.suffix "a." = EmptyString.
Proof. reflexivity. Qed.
Example suffix_none : Path.suffix "README" = EmptyString.
Proof. reflexivity. Qed.
Example with_suffix_mp3 : Path.with_suffix "a.mp3" ".wav" = Some "a.wav".
Proof. reflexivity. Qed.
Example with_suffix_none : Path.with_suffix "README" ".wav" = Some "README.wav".
Proof. reflexivity. Qed.
Example with_suffix_hidden : Path.with_suffix ".hidden" ".wav" = Some ".hidden.wav".
Proof. reflexivity. Qed.
Example with_suffix_trailing_dot : Path.with_suffix "a." ".wav" = Some "a..wav".
Proof. reflexivity. Qed.
Example is_wav_upper : Path.is_wav "TAKE1.WAV" = true.
Proof. reflexivity. Qed.
Example is_wav_mp3 : Path.is_wav "wav.mp3" = false.
Proof. reflexivity. Qed.

(** The converted name is a wav name. *)

Lemma rsplit_dot_wav (x : string) :
  Path.rsplit_dot (x +:+ ".wav") = Some (x, "wav").
Proof.
  induction x as [|c x IH]; [reflexivity|].
  change (String c x +:+ ".wav") with (String c (x +:+ ".wav")).
  cbn [Path.rsplit_dot]. by rewrite IH.
Qed.

Lemma stem_nonempty (name : string) :
  name ≠ EmptyString → Path.stem name ≠ EmptyString.
Proof.
  intros Hne. unfold Path.stem.
  destruct (Path.rsplit_dot name) as [[[|c st] [|e ext]]|]; done.
Qed.

Lemma with_suffix_is_wav (f w : string) :
  Path.with_suffix f ".wav" = Some w → Path.is_wav w = true.
Proof.
  unfold Path.with_suffix. destruct f as [|c f]; [done|].
  intros [= <-].
  pose proof (stem_nonempty (String c f)) as Hst.
  destruct (Path.stem (String c f)) as [|c' st]; [by destruct Hst|].
  unfold Path.is_wav, Path.suffix. by rewrite rsplit_dot_wav.
Qed.

Lemma with_suffix_ne (f w : string) :
  Path.is_wav f = false → Path.with_suffix f ".wav" = Some w → w ≠ f.
Proof.
  intros Hf Hw ->. apply with_suffix_is_wav in Hw. congruence.
Qed.

(** ** The monad *)

Lemma bind_ok {St A B} (m : M St A) (k : A → M St B) s a s' :
  m s = (Ok a, s') → bind m k s = k a s'.
Proof. unfold bind. by intros ->. Qed.

Lemma bind_raise {St A B} (m : M St A) (k : A → M St B) s e s' :
  m s = (Raise e, s') → bind m k s = (Raise e, s').
Proof. unfold bind. by intros ->. Qed.

Lemma bind_inv_ok {St A B} (m : M St A) (k : A → M St B) s b s2 :
  bind m k s = (Ok b, s2) → ∃ a s1, m s = (Ok a, s1) ∧ k a s1 = (Ok b, s2).
Proof.
  unfold bind. destruct (m s) as [[a|e] s1]; [|done]. intros Hk. by exists a, s1.
Qed.

Section Facts.

Context {content segment : Type}.
Variable from_file : string → content → option segment.
Variable export_wav : segment → content.
Variable seg_empty : segment.
Variable seg_add : segment → segment → segment.

Local Abbreviation dir := (gmap string (node content)).

Variable listdir : dir → list string.

Local Abbreviation convert' := (convert from_file export_wav).
Local Abbreviation visit' := (visit from_file export_wav).
Local Abbreviation visited' := (visited from_file export_wav).
Local Abbreviation normalize' := (normalize from_file export_wav).
Local Abbreviation load_all' := (load_all from_file).
Local Abbreviation combine' := (combine seg_empty seg_add).
Local Abbreviation concat_inputs' := (concat_inputs listdir).
Local Abbreviation concat' :=
  (concat_audio_files_in_dir from_file export_wav seg_empty seg_add listdir).
Local Abbreviation merge' :=
  (merge_audio_files from_file export_wav seg_empty seg_add listdir).

(** *** Single operations *)

Lemma file_at_true (d : dir) f : file_at d f = true ↔ ∃ c, d !! f = Some (File c).
Proof.
  unfold file_at. destruct (d !! f) as [[c|]|]; split; try done; try by eauto.
  all: by intros [c' [=]].
Qed.

Lemma file_at_insert (d : dir) f c n :
  file_at (<[f := File c]> d) n = if decide (f = n) then true else file_at d n.
Proof. unfold file_at. rewrite lookup_insert. by case_decide. Qed.

Lemma file_at_delete (d : dir) f n :
  file_at (delete f d) n = if decide (f = n) then false else file_at d n.
Proof. unfold file_at. rewrite lookup_delete. by case_decide. Qed.

(** The [try] body on a regular file [f]. *)
Lemma convert_eq (d : dir) f w c :
  d !! f = Some (File c) →
  convert' f w d =
    match from_file f c with
    | None => (Raise DecodeError, d)
    | Some seg =>
        match d !! w with
        | Some Dir => (Raise FilesystemError, d)
        | _ => (Ok tt, <[w := File (export_wav seg)]> d)
        end
    end.
Proof.
  intros Hf. unfold convert, AudioSegment_from_file, read_bytes, bind.
  rewrite Hf. destruct (from_file f c) as [seg|]; [|done].
  unfold ret, export, write_bytes. by destruct (d !! w) as [[?|]|].
Qed.

Lemma convert_raise (d d' : dir) f w e :
  convert' f w d = (Raise e, d') → d' = d.
Proof.
  unfold convert, AudioSegment_from_file, read_bytes, bind.
  destruct (d !! f) as [[c|]|]; try by intros [= _ <-].
  destruct (from_file f c) as [seg|]; [|by intros [= _ <-]].
  unfold ret, export, write_bytes.
  destruct (d !! w) as [[?|]|]; by intros [= <-] || intros [=].
Qed.

(** What one iteration does, case by case. *)
Lemma visit_skip (d : dir) f W :
  file_at d f = false → visit' f W d = (Ok W, d).
Proof.
  intros Hf. unfold visit, bind, is_file. rewrite Hf.
  by rewrite andb_false_r.
Qed.

Lemma visit_wav (d : dir) f W :
  file_at d f = true → Path.is_wav f = true → visit' f W d = (Ok (W ++ [f]), d).
Proof. intros Hf Hw. unfold visit, bind, is_file. by rewrite Hf, Hw. Qed.

Lemma visit_convert (d : dir) f W w :
  file_at d f = true → Path.is_wav f = false →
  Path.with_suffix f ".wav" = Some w →
  visit' f W d =
    match convert' f w d with
    | (Ok _, d1) => (Ok (W ++ [w]), delete f d1)
    | (Raise e, d1) => (Raise e, delete f d)
    end.
Proof.
  intros Hf Hw Hs. pose proof (with_suffix_ne _ _ Hw Hs) as Hne.
  apply file_at_true in Hf as [c Hc].
  unfold visit, bind at 1, is_file, file_at. rewrite Hc, Hw, Hs. cbn [negb andb].
  unfold bind, try_finally. rewrite (convert_eq d f w c Hc).
  destruct (from_file f c) as [seg|].
  - destruct (d !! w) as [[?|]|] eqn:Hdw; unfold unlink.
    + by rewrite lookup_insert_ne, Hc.
    + by rewrite Hc.
    + by rewrite lookup_insert_ne, Hc.
  - unfold unlink. by rewrite Hc.
Qed.

Lemma visit_value_error (d : dir) f W :
  file_at d f = true → Path.is_wav f = false →
  Path.with_suffix f ".wav" = None →
  visit' f W d = (Raise ValueError, d).
Proof.
  intros Hf Hw Hs. unfold visit, bind, is_file. by rewrite Hf, Hw, Hs.
Qed.

Lemma visit_ok (d d1 : dir) f W W1 :
  visit' f W d = (Ok W1, d1) → visited' d f W W1 d1.
Proof.
  destruct (file_at d f) eqn:Hf.
  2:{ rewrite visit_skip by done. intros [= <- <-]. by constructor. }
  destruct (Path.is_wav f) eqn:Hw.
  { rewrite visit_wav by done. intros [= <- <-]. by constructor. }
  destruct (Path.with_suffix f ".wav") as [w|] eqn:Hs.
  2:{ by rewrite visit_value_error. }
  rewrite (visit_convert d f W w) by done.
  pose proof Hf as Hf'. apply file_at_true in Hf' as [c Hc].
  rewrite (convert_eq d f w c Hc).
  destruct (from_file f c) as [seg|] eqn:Hdec; [|done].
  destruct (d !! w) as [[?|]|] eqn:Hdw; try done.
  all: intros [= <- <-]; eapply visited_convert; eauto; congruence.
Qed.

(** *** One iteration: what it preserves *)

Lemma visited_mono (d d1 : dir) f W W1 n :
  visited' d f W W1 d1 → n ∈ W → n ∈ W1.
Proof. destruct 1; set_solver. Qed.

Lemma visited_dirs (d d1 : dir) f W W1 n :
  visited' d f W W1 d1 → d1 !! n = Some Dir ↔ d !! n = Some Dir.
Proof.
  destruct 1 as [| |w c seg Hw Hs Hc Hdec Hdw]; [done..|].
  rewrite lookup_delete, lookup_insert.
  repeat case_decide; subst; naive_solver.
Qed.

Lemma visited_covered (d d1 : dir) f W W1 n :
  visited' d f W W1 d1 →
  file_at d1 n = true → n ∈ W1 ∨ (file_at d n = true ∧ n ≠ f).
Proof.
  destruct 1 as [Hf|Hf Hw|w c seg Hw Hs Hc Hdec Hdw]; intros Hn.
  - right. split; [done|]. intros ->. congruence.
  - destruct (decide (n = f)) as [->|]; [left; set_solver|by right].
  - rewrite file_at_delete, file_at_insert in Hn.
    repeat case_decide; subst; try done; [left; set_solver|by right].
Qed.

Lemma visited_keeps_wav (d d1 : dir) f W W1 n :
  visited' d f W W1 d1 →
  Path.is_wav n = true → file_at d n = true → file_at d1 n = true.
Proof.
  destruct 1 as [| |w c seg Hw Hs Hc Hdec Hdw]; [done..|]. intros Hn Hfile.
  rewrite file_at_delete, file_at_insert.
  repeat case_decide; subst; congruence.
Qed.

Lemma visited_working_set (d d1 : dir) f W W1 n :
  visited' d f W W1 d1 →
  n ∈ W1 → n ∈ W ∨ (file_at d1 n = true ∧ Path.is_wav n = true).
Proof.
  destruct 1 as [Hf|Hf Hw|w c seg Hw Hs Hc Hdec Hdw]; intros Hn.
  - by left.
  - apply elem_of_app in Hn as [?|Hn%list_elem_of_singleton]; [by left|].
    subst. by right.
  - apply elem_of_app in Hn as [?|Hn%list_elem_of_singleton]; [by left|].
    subst n. right. split; [|by eapply with_suffix_is_wav].
    rewrite file_at_delete, file_at_insert.
    pose proof (with_suffix_ne _ _ Hw Hs). repeat case_decide; congruence.
Qed.

(** *** The conversion loop *)

Lemma normalize_app l1 l2 W (d : dir) :
  normalize' (l1 ++ l2) W d =
    match normalize' l1 W d with
    | (Ok W1, d1) => normalize' l2 W1 d1
    | (Raise e, d1) => (Raise e, d1)
    end.
Proof.
  revert W d. induction l1 as [|f l1 IH]; intros W d; [done|].
  cbn [app normalize]. unfold bind.
  destruct (visit' f W d) as [[W1|e] d1]; [apply IH|done].
Qed.

Ltac normalize_step Hrun IH :=
  let W1 := fresh "W1" in
  let d1 := fresh "d1" in
  let Hv := fresh "Hv" in
  cbn [normalize] in Hrun;
  apply bind_inv_ok in Hrun as (W1 & d1 & Hv & Hrun);
  apply visit_ok in Hv;
  specialize (IH _ _ _ _ Hrun).

Lemma normalize_mono l W (d : dir) W' d' n :
  normalize' l W d = (Ok W', d') → n ∈ W → n ∈ W'.
Proof.
  revert W d W' d'. induction l as [|f l IH]; intros W d W' d' Hrun Hn.
  - by injection Hrun as <- <-.
  - normalize_step Hrun IH. eauto using visited_mono.
Qed.

Lemma normalize_dirs l W (d : dir) W' d' n :
  normalize' l W d = (Ok W', d') → d' !! n = Some Dir ↔ d !! n = Some Dir.
Proof.
  revert W d W' d'. induction l as [|f l IH]; intros W d W' d' Hrun.
  - by injection Hrun as <- <-.
  - normalize_step Hrun IH. rewrite IH. eauto using visited_dirs.
Qed.

Lemma normalize_covered l W (d : dir) W' d' n :
  normalize' l W d = (Ok W', d') →
  file_at d' n = true → n ∈ W' ∨ (file_at d n = true ∧ n ∉ l).
Proof.
  revert W d W' d'. induction l as [|f l IH]; intros W d W' d' Hrun Hn.
  - injection Hrun as <- <-. right. split; [done|]. apply not_elem_of_nil.
  - normalize_step Hrun IH.
    destruct (IH Hn) as [?|[Hn1 Hnl]]; [by left|].
    destruct (visited_covered _ _ _ _ _ _ Hv Hn1) as [Hin|[Hd Hne]].
    + left. eapply normalize_mono; [exact Hrun|done].
    + right. split; [done|]. by apply not_elem_of_cons.
Qed.

Lemma normalize_keeps_wav l W (d : dir) W' d' n :
  normalize' l W d = (Ok W', d') →
  Path.is_wav n = true → file_at d n = true → file_at d' n = true.
Proof.
  revert W d W' d'. induction l as [|f l IH]; intros W d W' d' Hrun Hw Hn.
  - by injection Hrun as <- <-.
  - normalize_step Hrun IH. eauto using visited_keeps_wav.
Qed.

Lemma normalize_working_set l W (d : dir) W' d' n :
  normalize' l W d = (Ok W', d') →
  n ∈ W' → n ∈ W ∨ file_at d' n = true.
Proof.
  revert W d W' d'. induction l as [|f l IH]; intros W d W' d' Hrun Hn.
  - injection Hrun as <- <-. by left.
  - normalize_step Hrun IH.
    destruct (IH Hn) as [Hn1|?]; [|by right].
    destruct (visited_working_set _ _ _ _ _ _ Hv Hn1) as [?|[Hfile Hwav]];
      [by left|right].
    eauto using normalize_keeps_wav.
Qed.

(** *** Concatenation *)

Lemma load_all_state l (d d' : dir) r :
  load_all' l d = (r, d') → d' = d.
Proof.
  revert r d'. induction l as [|f l IH]; intros r d'; [by intros [= _ <-]|].
  cbn [load_all]. unfold bind at 1, AudioSegment_from_file, bind, read_bytes.
  destruct (d !! f) as [[c|]|]; try by intros [= _ <-].
  destruct (from_file f c) as [seg|]; [|by intros [= _ <-]].
  unfold ret at 1. destruct (load_all' l d) as [[segs|e] d1].
  - rewrite (IH _ _ eq_refl). by intros [= _ <-].
  - rewrite (IH _ _ eq_refl). by intros [= _ <-].
Qed.

Lemma concat_ok_inv out (d d' : dir) :
  concat' out d = (Ok tt, d') →
  ∃ segs, concat_inputs' d ≠ [] ∧
          load_all' (concat_inputs' d) d = (Ok segs, d) ∧
          d !! out ≠ Some Dir ∧
          d' = <[out := File (export_wav (combine' segs))]> d.
Proof.
  unfold concat_audio_files_in_dir.
  destruct (concat_inputs' d) as [|f l] eqn:Hin; [done|].
  unfold bind. destruct (load_all' (f :: l) d) as [[segs|e] d1] eqn:Hl; [|done].
  apply load_all_state in Hl as Hd. subst d1.
  unfold export, write_bytes.
  destruct (d !! out) as [[c|]|] eqn:Hout; [|done|]; intros [= <-];
    exists segs; by rewrite ?Hout.
Qed.

Lemma concat_raise out (d d' : dir) e :
  concat' out d = (Raise e, d') → d' = d.
Proof.
  unfold concat_audio_files_in_dir.
  destruct (concat_inputs' d) as [|f l] eqn:Hin; [by intros [= _ <-]|].
  unfold bind. destruct (load_all' (f :: l) d) as [[segs|e'] d1] eqn:Hl.
  - apply load_all_state in Hl as ->. unfold export, write_bytes.
    destruct (d !! out) as [[c|]|]; by intros [= <-] || intros [=].
  - apply load_all_state in Hl as ->. by intros [= _ <-].
Qed.

(** *** Cleanup *)

Lemma cleanup_cons f rest (d : dir) :
  cleanup (f :: rest) d =
    if String.eqb f output then cleanup rest d
    else match d !! f with
         | None => cleanup rest d
         | Some (File _) => cleanup rest (delete f d)
         | Some Dir => (Raise FilesystemError, d)
         end.
Proof.
  cbn [cleanup]. unfold bind, exists_, unlink, ret.
  destruct (String.eqb f output); [by destruct (d !! f)|].
  destruct (d !! f) as [[c|]|] eqn:Hf; cbn [negb andb]; by rewrite ?Hf.
Qed.

Lemma cleaned_cons_keep f W (d : dir) n :
  f = output ∨ d !! f = None → cleaned W d n = cleaned (f :: W) d n.
Proof.
  intros Hf. unfold cleaned.
  destruct (decide (n ∈ W ∧ n ≠ output)) as [[Hn Hne]|Hn],
           (decide (n ∈ f :: W ∧ n ≠ output)) as [[Hn' Hne']|Hn']; try done.
  - destruct Hn'. split; [by apply elem_of_cons; right|done].
  - apply elem_of_cons in Hn' as [->|Hn']; [|by destruct Hn].
    by destruct Hf as [->|Hf].
Qed.

Lemma cleaned_cons_delete f W (d : dir) n :
  f ≠ output → cleaned W (delete f d) n = cleaned (f :: W) d n.
Proof.
  intros Hf. unfold cleaned. rewrite lookup_delete.
  destruct (decide (n ∈ W ∧ n ≠ output)) as [[Hn Hne]|Hn],
           (decide (n ∈ f :: W ∧ n ≠ output)) as [[Hn' Hne']|Hn']; try done.
  - destruct Hn'. split; [by apply elem_of_cons; right|done].
  - apply elem_of_cons in Hn' as [->|Hn']; [|by destruct Hn].
    by rewrite decide_True.
  - case_decide as Hfn; [|done]. subst n. destruct Hn'.
    split; [by apply elem_of_cons; left|done].
Qed.

Lemma cleanup_ok_inv W (d d' : dir) :
  cleanup W d = (Ok tt, d') → ∀ n, d' !! n = cleaned W d n.
Proof.
  revert d. induction W as [|f W IH]; intros d Hrun n.
  - injection Hrun as <-. unfold cleaned. case_decide as Hn; [|done].
    destruct Hn as [Hn _]. by apply not_elem_of_nil in Hn.
  - rewrite cleanup_cons in Hrun.
    destruct (String.eqb_spec f output) as [->|Hne].
    { rewrite (IH _ Hrun). apply cleaned_cons_keep. by left. }
    destruct (d !! f) as [[c|]|] eqn:Hf; [| done |].
    + rewrite (IH _ Hrun). by apply cleaned_cons_delete.
    + rewrite (IH _ Hrun). apply cleaned_cons_keep. by right.
Qed.

Lemma cleanup_total W (d : dir) :
  (∀ f, f ∈ W → d !! f ≠ Some Dir) → ∃ d', cleanup W d = (Ok tt, d').
Proof.
  revert d. induction W as [|f W IH]; intros d Hfiles; [by exists d|].
  rewrite cleanup_cons.
  assert (∀ g, g ∈ W → d !! g ≠ Some Dir) as HW.
  { intros g Hg. apply Hfiles. by apply elem_of_cons; right. }
  destruct (String.eqb f output); [by apply IH|].
  destruct (d !! f) as [[c|]|] eqn:Hf.
  - apply IH. intros g Hg. rewrite lookup_delete. case_decide; [done|by apply HW].
  - destruct (Hfiles f); [by apply elem_of_cons; left|done].
  - by apply IH.
Qed.

Lemma cleanup_only_output W (d : dir) :
  (∀ f, f ∈ W → f = output) → cleanup W d = (Ok tt, d).
Proof.
  induction W as [|f W IH]; intros HW; [done|].
  rewrite cleanup_cons, (HW f) by (apply elem_of_cons; by left).
  cbn. apply IH. intros g Hg. apply HW, elem_of_cons. by right.
Qed.

(** C6.  [cleanup] on a working set none of whose names is a directory
    returns normally; every name of the set other than the merged output
    is absent afterwards, all other entries are as before.  A name that
    is already absent, and the merged output itself, are passed over
    without a call of [unlink]. *)
Theorem cleanup_deletes_existing_skips_missing :
  (∀ W (d : dir), (∀ f, f ∈ W → d !! f ≠ Some Dir) →
     ∃ d', cleanup W d = (Ok tt, d') ∧
           (∀ f, f ∈ W → f ≠ output → d' !! f = None) ∧
           (∀ n, n ∉ W ∨ n = output → d' !! n = d !! n)) ∧
  (∀ f rest (d : dir), d !! f = None → cleanup (f :: rest) d = cleanup rest d) ∧
  (∀ rest (d : dir), cleanup (output :: rest) d = cleanup rest d).
Proof.
  split_and!.
  - intros W d HW. destruct (cleanup_total W d HW) as [d' Hrun].
    pose proof (cleanup_ok_inv _ _ _ Hrun) as Hd'.
    exists d'. split_and!; [done| |].
    + intros f Hf Hne. rewrite Hd'. unfold cleaned. by rewrite decide_True.
    + intros n Hn. rewrite Hd'. unfold cleaned.
      rewrite decide_False; [done|]. intros [? ?]. by destruct Hn.
  - intros f rest d Hf. rewrite cleanup_cons, Hf. by destruct (String.eqb f output).
  - intros rest d. by rewrite cleanup_cons.
Qed.

(** The working set [merge_audio_files] hands to [cleanup] holds no
    directory: every name in it was a regular file when it was added and
    carries a wav name, and the loop removes non-wav files only. *)
Lemma cleanup_reached_on_files l (d d1 d2 : dir) W :
  normalize' l [] d = (Ok W, d1) → concat' output d1 = (Ok tt, d2) →
  ∀ f, f ∈ W → d2 !! f ≠ Some Dir.
Proof.
  intros Hnorm Hcat f Hf.
  apply concat_ok_inv in Hcat as (segs & _ & _ & _ & ->).
  apply (normalize_working_set _ _ _ _ _ _ Hnorm) in Hf as [Hf|Hf];
    [by apply not_elem_of_nil in Hf|].
  apply file_at_true in Hf as [c Hc].
  rewrite lookup_insert. case_decide; [done|]. by rewrite Hc.
Qed.

(** A directory whose regular files all carry a wav name goes through
    the conversion loop unchanged. *)
Lemma normalize_all_wav l W (d : dir) :
  (∀ n, file_at d n = true → Path.is_wav n = true) →
  normalize' l W d = (Ok (W ++ List.filter (file_at d) l), d).
Proof.
  intros Hwav. revert W. induction l as [|f l IH]; intros W.
  - cbn. by rewrite app_nil_r.
  - cbn [normalize List.filter]. destruct (file_at d f) eqn:Hf.
    + rewrite (bind_ok _ _ _ _ _ (visit_wav d f W Hf (Hwav f Hf))).
      rewrite IH. by rewrite <- app_assoc.
    + rewrite (bind_ok _ _ _ _ _ (visit_skip d f W Hf)). apply IH.
Qed.

Lemma filter_none {A} (P : A → bool) (l : list A) :
  (∀ y, y ∈ l → P y = false) → List.filter P l = [].
Proof.
  induction l as [|a l IH]; intros HP; [done|]. cbn.
  rewrite (HP a) by (apply elem_of_cons; by left).
  apply IH. intros y Hy. apply HP, elem_of_cons. by right.
Qed.

Lemma filter_only {A} (P : A → bool) (l : list A) (x : A) :
  NoDup l → x ∈ l → P x = true → (∀ y, y ∈ l → P y = true → y = x) →
  List.filter P l = [x].
Proof.
  induction 1 as [|a l Ha Hl IH]; intros Hx HPx Huniq.
  { by apply not_elem_of_nil in Hx. }
  cbn. destruct (P a) eqn:HPa.
  - assert (a = x) as -> by (apply Huniq; [apply elem_of_cons; by left|done]).
    f_equal. apply filter_none. intros y Hy.
    destruct (P y) eqn:HPy; [|done].
    assert (y = x) as -> by (apply Huniq; [apply elem_of_cons; by right|done]).
    done.
  - apply elem_of_cons in Hx as [->|Hx]; [congruence|].
    apply IH; [done..|]. intros y Hy. apply Huniq, elem_of_cons. by right.
Qed.

(** *** Two runs that differ in the content of one wav file *)

Lemma visited_keeps_other (d d1 : dir) f g W W1 :
  visited' d g W W1 d1 → f ≠ g → file_at d f = true → file_at d1 f = true.
Proof.
  destruct 1 as [| |w c seg Hw Hs Hc Hdec Hdw]; [done..|]. intros Hne Hf.
  rewrite file_at_delete, file_at_insert. repeat case_decide; congruence.
Qed.

Lemma agree_except_file_at w (dA dB : dir) n :
  agree_except w dA dB → file_at dA n = file_at dB n.
Proof.
  intros (Hsame & HA & HB). destruct (decide (n = w)) as [->|Hne]; [congruence|].
  unfold file_at. by rewrite (Hsame n Hne).
Qed.

Lemma agree_except_overwrite w (dA dB : dir) g c :
  agree_except w dA dB → g ≠ w →
  delete g (<[w := File c]> dA) = delete g (<[w := File c]> dB).
Proof.
  intros (Hsame & _ & _) Hg. apply map_eq. intros n.
  rewrite !lookup_delete, !lookup_insert.
  repeat case_decide; subst; try done. by apply Hsame.
Qed.

Lemma agree_except_step w (dA dB : dir) g wg c :
  agree_except w dA dB → g ≠ w → wg ≠ w →
  agree_except w (delete g (<[wg := File c]> dA)) (delete g (<[wg := File c]> dB)).
Proof.
  intros (Hsame & HA & HB) Hg Hwg. split_and!.
  - intros n Hn. rewrite !lookup_delete, !lookup_insert.
    repeat case_decide; subst; try done. by apply Hsame.
  - rewrite file_at_delete, file_at_insert. repeat case_decide; congruence.
  - rewrite file_at_delete, file_at_insert. repeat case_decide; congruence.
Qed.

Lemma same_outcome_refl {A} w (r : result A * dir) : same_outcome w r r.
Proof. destruct r as [[a|e] d]; cbn; auto. Qed.

Lemma visit_agree w (dA dB : dir) g W :
  agree_except w dA dB → Path.is_wav w = true →
  same_outcome w (visit' g W dA) (visit' g W dB) ∧
  (Path.is_wav g = false → file_at dA g = true →
   Path.with_suffix g ".wav" = Some w →
   ∀ W1 dA', visit' g W dA = (Ok W1, dA') → visit' g W dB = (Ok W1, dA')).
Proof.
  intros Hagree Hwav.
  pose proof (agree_except_file_at w dA dB g Hagree) as Hfile.
  destruct (file_at dA g) eqn:HfA; symmetry in Hfile.
  2:{ rewrite !visit_skip by done. split; [|done]. cbn. auto. }
  destruct (Path.is_wav g) eqn:Hg.
  { rewrite !visit_wav by done. split; [|done]. cbn. auto. }
  assert (g ≠ w) as Hgw by congruence.
  destruct (Path.with_suffix g ".wav") as [wg|] eqn:Hs.
  2:{ rewrite !visit_value_error by done. split; [|done]. by cbn. }
  rewrite (visit_convert dA g W wg), (visit_convert dB g W wg) by done.
  apply file_at_true in HfA as [c HcA].
  assert (dB !! g = Some (File c)) as HcB.
  { destruct Hagree as (Hsame & _). by rewrite <- (Hsame g Hgw). }
  rewrite (convert_eq dA g wg c HcA), (convert_eq dB g wg c HcB).
  destruct (from_file g c) as [seg|]; [|split; [by cbn|done]].
  destruct (decide (wg = w)) as [->|Hwg].
  - pose proof Hagree as (_ & [cA HA]%file_at_true & [cB HB]%file_at_true).
    rewrite HA, HB. rewrite (agree_except_overwrite w dA dB g _ Hagree Hgw).
    split; [cbn; auto|]. by intros _ _ _ W1 dA' [= <- <-].
  - assert (dA !! wg = dB !! wg) as Hsame by (by apply Hagree).
    rewrite <- Hsame. split; [|by intros _ _ [=]].
    destruct (dA !! wg) as [[?|]|]; cbn; try done.
    all: split; [done|right]; by apply agree_except_step.
Qed.

Lemma normalize_agree w l : ∀ W (dA dB : dir),
  agree_except w dA dB → Path.is_wav w = true →
  same_outcome w (normalize' l W dA) (normalize' l W dB) ∧
  (∀ f, f ∈ l → Path.is_wav f = false → file_at dA f = true →
        Path.with_suffix f ".wav" = Some w →
        ∀ W' dA', normalize' l W dA = (Ok W', dA') →
                  normalize' l W dB = (Ok W', dA')).
Proof.
  induction l as [|g l IH]; intros W dA dB Hagree Hwav.
  { split; [cbn; auto|]. intros f Hf. by apply not_elem_of_nil in Hf. }
  destruct (visit_agree w dA dB g W Hagree Hwav) as [Hout Hhit].
  cbn [normalize]. unfold bind.
  destruct (visit' g W dA) as [[WA|eA] dA1] eqn:HvA,
           (visit' g W dB) as [[WB|eB] dB1] eqn:HvB; cbn in Hout; try done.
  destruct Hout as [<- [<-|Hagree1]].
  { split; [apply same_outcome_refl|]. by intros. }
  destruct (IH WA dA1 dB1 Hagree1 Hwav) as [IHout IHhit].
  split; [done|]. intros f Hf Hfw HfA Hs W' dA' Hrun.
  destruct (decide (f = g)) as [->|Hne].
  - specialize (Hhit Hfw HfA Hs _ _ eq_refl). injection Hhit as <-. done.
  - apply elem_of_cons in Hf as [?|Hf]; [done|].
    apply (IHhit f Hf Hfw); try done.
    apply visit_ok in HvA. by eapply visited_keeps_other.
Qed.

Lemma normalize_untouched l W (d : dir) W' d' n :
  normalize' l W d = (Ok W', d') → Path.is_wav n = true →
  (∀ f, f ∈ l → Path.is_wav f = false → Path.with_suffix f ".wav" ≠ Some n) →
  d' !! n = d !! n.
Proof.
  revert W d W' d'. induction l as [|g l IH]; intros W d W' d' Hrun Hn Hl.
  - by injection Hrun as <- <-.
  - normalize_step Hrun IH. rewrite IH; [|done|].
    2:{ intros f Hf. apply Hl, elem_of_cons. by right. }
    destruct Hv as [| |w c seg Hw Hs Hc Hdec Hdw]; [done..|].
    assert (w ≠ n).
    { intros ->. by apply (Hl g); [apply elem_of_cons; left|..]. }
    rewrite lookup_delete, lookup_insert. repeat case_decide; congruence.
Qed.

(** *** The whole merge *)

Lemma merge_ok_inv (d d' : dir) :
  merge' d = (Ok tt, d') →
  ∃ W d1 d2, normalize' (listdir d) [] d = (Ok W, d1) ∧
             concat' output d1 = (Ok tt, d2) ∧
             cleanup W d2 = (Ok tt, d').
Proof.
  unfold merge_audio_files, bind at 1, iterdir. intros Hrun.
  apply bind_inv_ok in Hrun as (W & d1 & Hnorm & Hrun).
  apply bind_inv_ok in Hrun as ([] & d2 & Hcat & Hclean).
  by exists W, d1, d2.
Qed.

Lemma merge_normalize_raise (d d1 : dir) e :
  normalize' (listdir d) [] d = (Raise e, d1) → merge' d = (Raise e, d1).
Proof.
  intros Hnorm. unfold merge_audio_files, bind at 1, iterdir.
  by rewrite (bind_raise _ _ _ _ _ Hnorm).
Qed.

(** C3.  When the loop reaches a regular non-wav file [f] whose
    conversion raises, [merge_audio_files] raises that error: neither
    the concatenation nor the cleanup runs.  In the directory the caller
    is left with, [f] has been removed and every other entry is as the
    loop had left it before [f], converted files of the earlier
    iterations included. *)
Theorem conversion_failure_aborts (d d1 dx : dir) l1 l2 f w W1 e :
  listdir d = l1 ++ f :: l2 →
  normalize' l1 [] d = (Ok W1, d1) →
  file_at d1 f = true → Path.is_wav f = false →
  Path.with_suffix f ".wav" = Some w →
  convert' f w d1 = (Raise e, dx) →
  ∃ d', merge' d = (Raise e, d') ∧
        d' !! f = None ∧
        ∀ n, n ≠ f → d' !! n = d1 !! n.
Proof.
  intros Hl Hpre Hf Hw Hs Hconv. exists (delete f d1). split_and!.
  - apply merge_normalize_raise. rewrite Hl, normalize_app, Hpre.
    cbn [normalize]. apply bind_raise.
    by rewrite (visit_convert d1 f W1 w Hf Hw Hs), Hconv.
  - apply lookup_delete_eq.
  - intros n Hn. by apply lookup_delete_ne.
Qed.

Lemma merge_unfold (d : dir) :
  merge' d =
    match normalize' (listdir d) [] d with
    | (Ok W, d1) => (concat' output >> cleanup W) d1
    | (Raise e, d1) => (Raise e, d1)
    end.
Proof. reflexivity. Qed.

Section Listing.

Hypothesis listdir_NoDup : ∀ d, NoDup (listdir d).
Hypothesis listdir_elem : ∀ d f, f ∈ listdir d ↔ is_Some (d !! f).

Lemma listdir_empty : listdir ∅ = [].
Proof using listdir_elem.
  destruct (listdir ∅) as [|f l] eqn:Hl; [done|].
  assert (f ∈ listdir ∅) as Hf by (rewrite Hl; apply elem_of_cons; by left).
  apply listdir_elem in Hf as [x Hx]. by rewrite lookup_empty in Hx.
Qed.

(** A successful run, entry by entry: the merged file holds the
    concatenation of what the directory held in wav form after the
    conversion loop, the regular files are gone, the subdirectories
    are in place. *)
Lemma merge_ok_final (d d' : dir) :
  merge' d = (Ok tt, d') →
  ∃ W d1 segs,
    normalize' (listdir d) [] d = (Ok W, d1) ∧
    concat_inputs' d1 ≠ [] ∧
    load_all' (concat_inputs' d1) d1 = (Ok segs, d1) ∧
    d' !! output = Some (File (export_wav (combine' segs))) ∧
    ∀ n, n ≠ output →
         d' !! n = match d !! n with Some Dir => Some Dir | _ => None end.
Proof using listdir_elem.
  intros Hrun. apply merge_ok_inv in Hrun as (W & d1 & d2 & Hnorm & Hcat & Hclean).
  apply concat_ok_inv in Hcat as (segs & Hne & Hload & Hout & ->).
  pose proof (cleanup_ok_inv _ _ _ Hclean) as Hd'.
  exists W, d1, segs. split_and!; try done.
  - rewrite Hd'. unfold cleaned. rewrite decide_False by (by intros [_ ?]).
    apply lookup_insert_eq.
  - intros n Hn. rewrite Hd'. unfold cleaned.
    pose proof (normalize_dirs _ _ _ _ _ n Hnorm) as Hdirs.
    case_decide as HW.
    + destruct HW as [HW _].
      apply (normalize_working_set _ _ _ _ _ _ Hnorm) in HW as [HW|HW];
        [by apply not_elem_of_nil in HW|].
      apply file_at_true in HW as [c Hc].
      destruct (d !! n) as [[?|]|]; try done.
      destruct Hdirs as [_ Hdirs]. rewrite Hdirs in Hc; done.
    + rewrite lookup_insert_ne by done.
      destruct (d1 !! n) as [[c|]|] eqn:Hd1.
      * assert (file_at d1 n = true) as Hfile by (apply file_at_true; eauto).
        apply (normalize_covered _ _ _ _ _ _ Hnorm) in Hfile as [Hin|[Hfile Hnl]].
        { destruct HW. by split. }
        destruct Hnl. apply listdir_elem.
        apply file_at_true in Hfile as [c' ->]. by eexists.
      * destruct Hdirs as [Hdirs _]. by rewrite (Hdirs eq_refl).
      * destruct (d !! n) as [[?|]|]; try done.
        destruct Hdirs as [_ Hdirs]. by specialize (Hdirs eq_refl).
Qed.

Lemma merge_ok_files (d d' : dir) :
  merge' d = (Ok tt, d') → ∀ n, file_at d' n = true ↔ n = output.
Proof using listdir_elem.
  intros Hrun n.
  apply merge_ok_final in Hrun as (W & d1 & segs & _ & _ & _ & Hout & Hrest).
  split.
  - intros Hn. destruct (decide (n = output)) as [|Hne]; [done|].
    apply file_at_true in Hn as [c Hc]. rewrite (Hrest n Hne) in Hc.
    by destruct (d !! n) as [[?|]|].
  - intros ->. apply file_at_true. eauto.
Qed.

(** C1.  When [merge_audio_files] returns normally, [merged.wav] is the
    one regular file of the directory and every other file that was
    there when it was called is gone; a directory that held regular
    files only is left holding [merged.wav] and nothing else. *)
Theorem merge_leaves_only_merged (d d' : dir) :
  merge' d = (Ok tt, d') →
  (∀ n, file_at d' n = true ↔ n = output) ∧
  (∀ n, n ≠ output → file_at d n = true → d' !! n = None) ∧
  ((∀ n, d !! n ≠ Some Dir) → ∃ c, d' = {[output := File c]}).
Proof using listdir_elem.
  intros Hrun. split; [by apply (merge_ok_files d)|].
  apply merge_ok_final in Hrun as (W & d1 & segs & _ & _ & _ & Hout & Hrest).
  split.
  - intros n Hne Hn. rewrite (Hrest n Hne).
    apply file_at_true in Hn as [c ->]. done.
  - intros Hfiles. eexists. apply map_eq. intros n.
    destruct (decide (n = output)) as [->|Hne].
    + rewrite Hout. by rewrite lookup_singleton_eq.
    + rewrite lookup_singleton_ne by done. rewrite (Hrest n Hne).
      specialize (Hfiles n). by destruct (d !! n) as [[?|]|].
Qed.

Lemma merge_empty : merge' ∅ = (Raise ConcatenationError, ∅).
Proof using listdir_elem.
  unfold merge_audio_files, bind, iterdir. rewrite listdir_empty. cbn.
  unfold concat_audio_files_in_dir, concat_inputs.
  by rewrite listdir_empty.
Qed.

(** A directory whose only regular file is [merged.wav]. *)
Lemma merge_single (d : dir) c seg :
  d !! output = Some (File c) →
  (∀ n, n ≠ output → file_at d n = false) →
  from_file output c = Some seg →
  merge' d = (Ok tt, <[output := File (export_wav (combine' [seg]))]> d).
Proof using listdir_NoDup listdir_elem.
  intros Hout Hrest Hdec.
  assert (file_at d output = true) as Hfile by (apply file_at_true; eauto).
  assert (∀ n, file_at d n = true → n = output) as Honly.
  { intros n Hn. destruct (decide (n = output)) as [|Hne]; [done|].
    rewrite (Hrest n Hne) in Hn. done. }
  assert (concat_inputs' d = [output]) as Hin.
  { apply filter_only; [apply listdir_NoDup| |by rewrite Hfile|].
    - apply listdir_elem. by rewrite Hout.
    - intros y _ [Hy _]%andb_true_iff. by apply Honly. }
  assert (∀ n, file_at d n = true → Path.is_wav n = true) as Hwav.
  { intros n Hn. by rewrite (Honly n Hn). }
  unfold merge_audio_files, bind at 1, iterdir.
  rewrite (bind_ok _ _ d _ _ (normalize_all_wav (listdir d) [] d Hwav)).
  assert (concat' output d
          = (Ok tt, <[output := File (export_wav (combine' [seg]))]> d)) as Hcat.
  { unfold concat_audio_files_in_dir. rewrite Hin.
    unfold bind, load_all, bind, AudioSegment_from_file, bind, read_bytes.
    rewrite Hout, Hdec. cbn. unfold export, write_bytes. by rewrite Hout. }
  rewrite (bind_ok _ _ _ _ _ Hcat). apply cleanup_only_output.
  intros f Hf. apply list_elem_of_In, filter_In in Hf as [_ Hf].
  by apply Honly.
Qed.

(** C7.  Provided pydub can read back the wav files it writes, a second
    run on the directory a successful run leaves succeeds as well: it
    reads [merged.wav] as its single input, writes the new
    [merged.wav] from it, touches nothing else, and [merged.wav] is
    again the one regular file of the directory. *)
Theorem merge_twice (d d1 : dir) :
  (∀ seg, is_Some (from_file output (export_wav seg))) →
  merge' d = (Ok tt, d1) →
  ∃ d2 c seg,
    merge' d1 = (Ok tt, d2) ∧
    d1 !! output = Some (File c) ∧ from_file output c = Some seg ∧
    d2 = <[output := File (export_wav (combine' [seg]))]> d1 ∧
    (∀ n, file_at d2 n = true ↔ n = output).
Proof using listdir_NoDup listdir_elem.
  intros Hcodec Hrun.
  apply merge_ok_final in Hrun as (W & dn & segs & _ & _ & _ & Hout & Hrest).
  destruct (Hcodec (combine' segs)) as [seg Hseg].
  assert (∀ n, n ≠ output → file_at d1 n = false) as Hnofile.
  { intros n Hne. unfold file_at. rewrite (Hrest n Hne).
    by destruct (d !! n) as [[?|]|]. }
  eexists _, _, seg. split_and!; [by eapply merge_single|done..|].
  intros n. rewrite file_at_insert. case_decide as Hn; [by subst|].
  rewrite Hnofile by done. split; [done|]. by intros ->.
Qed.

(** C2, as the code has it.  A [merged.wav] that is in the directory
    when a successful run starts is not removed before the merge: it
    is still a regular file when the concatenation runs and is one of
    the files the concatenation reads (with its old content, unless
    the conversion of a file called [merged.<ext>] has overwritten
    it).  The run replaces it by the export of the concatenation and
    leaves it as the one regular file of the directory. *)
Theorem stale_merged_is_merged_again (d d' : dir) c :
  d !! output = Some (File c) → merge' d = (Ok tt, d') →
  ∃ W d1 segs,
    normalize' (listdir d) [] d = (Ok W, d1) ∧
    output ∈ concat_inputs' d1 ∧
    ((∀ f, is_Some (d !! f) → Path.is_wav f = false →
           Path.with_suffix f ".wav" ≠ Some output) →
     d1 !! output = Some (File c)) ∧
    load_all' (concat_inputs' d1) d1 = (Ok segs, d1) ∧
    d' !! output = Some (File (export_wav (combine' segs))) ∧
    (∀ n, file_at d' n = true ↔ n = output).
Proof using listdir_elem.
  intros Hstale Hrun.
  pose proof (merge_ok_files d d' Hrun) as Honly.
  apply merge_ok_final in Hrun as (W & d1 & segs & Hnorm & _ & Hload & Hout & _).
  exists W, d1, segs. split_and!; try done.
  - assert (file_at d1 output = true) as Hfile.
    { apply (normalize_keeps_wav _ _ _ _ _ _ Hnorm); [done|].
      apply file_at_true; eauto. }
    apply list_elem_of_In, filter_In. split; [|by rewrite Hfile].
    apply list_elem_of_In, listdir_elem.
    apply file_at_true in Hfile as [c1 ->]. by eexists.
  - intros Hnone. rewrite <- Hstale.
    apply (normalize_untouched _ _ _ _ _ _ Hnorm); [done|].
    intros f Hf. by apply Hnone, listdir_elem.
Qed.

(** C10.  The file a non-wav [f] is converted to is [f] with [.wav] in
    place of its suffix.  When that name is already taken by a regular
    file, the iteration on [f] overwrites it with the converted audio,
    and what the file held before has no part in the run: with any
    other bytes there, the merge returns or raises in the same way,
    and a successful merge leaves the same directory. *)
Theorem conversion_overwrites_existing_wav (d : dir) f w c old old' :
  Path.is_wav f = false → Path.with_suffix f ".wav" = Some w →
  d !! f = Some (File c) → d !! w = Some (File old) →
  listdir (<[w := File old']> d) = listdir d →
  w = Path.stem f +:+ ".wav" ∧
  (∀ seg W, from_file f c = Some seg →
     visit' f W d =
       (Ok (W ++ [w]), delete f (<[w := File (export_wav seg)]> d))) ∧
  (merge' (<[w := File old']> d)).1 = (merge' d).1 ∧
  ((merge' d).1 = Ok tt → merge' (<[w := File old']> d) = merge' d).
Proof using listdir_elem.
  intros Hf Hs Hc Hold Hls.
  assert (file_at d f = true) as Hfile by (apply file_at_true; eauto).
  assert (Path.is_wav w = true) as Hw by (by eapply with_suffix_is_wav).
  assert (agree_except w d (<[w := File old']> d)) as Hagree.
  { split_and!.
    - intros n Hn. by rewrite lookup_insert_ne.
    - apply file_at_true; eauto.
    - rewrite file_at_insert. by rewrite decide_True. }
  destruct (normalize_agree w (listdir d) [] _ _ Hagree Hw) as [Hout Hhit].
  specialize (Hhit f).
  assert (f ∈ listdir d) as Hin by (apply listdir_elem; by rewrite Hc).
  specialize (Hhit Hin Hf Hfile Hs).
  split_and!.
  - unfold Path.with_suffix in Hs. destruct f; [done|]. by injection Hs as <-.
  - intros seg W Hdec.
    rewrite (visit_convert d f W w Hfile Hf Hs), (convert_eq d f w c Hc).
    by rewrite Hdec, Hold.
  - rewrite !merge_unfold, Hls.
    destruct (normalize' (listdir d) [] d) as [[W|e] d1] eqn:HA.
    + by rewrite (Hhit _ _ eq_refl).
    + destruct (normalize' (listdir d) [] (<[w := File old']> d))
        as [[W|e'] d2]; cbn in Hout; [done|by subst].
  - rewrite !merge_unfold, Hls.
    destruct (normalize' (listdir d) [] d) as [[W|e] d1] eqn:HA.
    + by rewrite (Hhit _ _ eq_refl).
    + done.
Qed.

End Listing.

(** *** [main]: the token *)

Section Main.

Variable run_py : gmap string string → @world content → Z * @world content.

Local Abbreviation main' :=
  (main from_file export_wav seg_empty seg_add listdir run_py).

Lemma main_after_merge environ (d d' : dir) e :
  merge' d = (Ok tt, d') →
  main' environ (World d e) =
    match hf_token environ with
    | Some (String a t) =>
        subprocess_run run_py environ
          (World d' (Some ("huggingface_ACCESS_TOKEN=" +:+ String a t +:+ newline)))
    | _ => subprocess_run run_py environ (World d' e)
    end.
Proof.
  intros Hrun. unfold main, bind at 1, in_examples. cbn [speech_examples dot_env].
  rewrite Hrun. by destruct (hf_token environ) as [[|a t]|].
Qed.

(** A variable set to the empty string counts for the token as one that
    is not set. *)
Lemma hf_token_delete_empty environ k :
  environ !! k = Some EmptyString →
  (if truthy (hf_token (delete k environ))
   then hf_token (delete k environ) else None) =
  (if truthy (hf_token environ) then hf_token environ else None).
Proof.
  intros Hk. unfold hf_token. rewrite !lookup_delete.
  repeat case_decide; subst; rewrite ?Hk; try done.
  all: destruct (environ !! "HUGGINGFACE_ACCESS_TOKEN") as [[|a1 t1]|],
                (environ !! "hf") as [[|a2 t2]|],
                (environ !! "HF_TOKEN") as [[|a3 t3]|]; try done.
Qed.

Lemma env_after_delete_empty environ k e :
  environ !! k = Some EmptyString →
  env_after environ e = env_after (delete k environ) e.
Proof.
  intros Hk. pose proof (hf_token_delete_empty environ k Hk) as Heq.
  unfold env_after.
  destruct (hf_token environ) as [[|a t]|],
           (hf_token (delete k environ)) as [[|a' t']|];
    cbn in Heq; try done; by injection Heq as -> ->.
Qed.

Lemma main_hands_over environ (d d' : dir) e :
  merge' d = (Ok tt, d') →
  main' environ (World d e) =
    subprocess_run run_py environ (World d' (env_after environ e)).
Proof.
  intros Hrun. rewrite (main_after_merge _ _ _ _ Hrun). unfold env_after.
  by destruct (hf_token environ) as [[|a t]|].
Qed.

(** C4.  The token is the value of HUGGINGFACE_ACCESS_TOKEN if that is
    set to a non-empty string, else that of [hf], else that of
    HF_TOKEN.  Once the merge has succeeded, a token found is written
    to [.env] as the single line [huggingface_ACCESS_TOKEN=<token>]
    with a newline, whatever the file held before; with HF_TOKEN=abc123
    as the only one of the three set, the pipeline starts with [.env]
    holding exactly that line for [abc123]. *)
Theorem token_priority_and_env_file environ (d d' : dir) e :
  merge' d = (Ok tt, d') →
  (truthy (environ !! "HUGGINGFACE_ACCESS_TOKEN") = true →
   hf_token environ = environ !! "HUGGINGFACE_ACCESS_TOKEN") ∧
  (truthy (environ !! "HUGGINGFACE_ACCESS_TOKEN") = false →
   truthy (environ !! "hf") = true →
   hf_token environ = environ !! "hf") ∧
  (truthy (environ !! "HUGGINGFACE_ACCESS_TOKEN") = false →
   truthy (environ !! "hf") = false →
   hf_token environ = environ !! "HF_TOKEN") ∧
  (∀ token, hf_token environ = Some token → token ≠ EmptyString →
     main' environ (World d e) =
       subprocess_run run_py environ
         (World d' (Some ("huggingface_ACCESS_TOKEN=" +:+ token +:+ newline)))) ∧
  (environ !! "HUGGINGFACE_ACCESS_TOKEN" = None → environ !! "hf" = None →
   environ !! "HF_TOKEN" = Some "abc123" →
   main' environ (World d e) =
     subprocess_run run_py environ
       (World d' (Some ("huggingface_ACCESS_TOKEN=abc123" +:+ newline)))).
Proof.
  intros Hrun. unfold hf_token, py_or. split_and!.
  - intros H1. by rewrite !H1.
  - intros H1 H2. rewrite H1. by rewrite !H2.
  - intros H1 H2. rewrite H1. by rewrite !H2.
  - intros token Htok Hne. rewrite (main_after_merge _ _ _ _ Hrun).
    unfold hf_token, py_or. rewrite Htok. by destruct token.
  - intros H1 H2 H3. rewrite (main_after_merge _ _ _ _ Hrun).
    unfold hf_token, py_or. by rewrite H1, H2, H3.
Qed.

(** C5.  On an empty directory the merge raises ConcatenationError and
    the directory is still empty; [main] stops there with that error,
    before the token and the pipeline. *)
Theorem merge_empty_directory :
  (∀ d f, f ∈ listdir d ↔ is_Some (d !! f)) →
  merge' ∅ = (Raise ConcatenationError, ∅) ∧
  ∀ environ e,
    main' environ (World ∅ e) = (Raise ConcatenationError, World ∅ e).
Proof.
  intros Hlist. pose proof (merge_empty Hlist) as Hrun. split; [done|].
  intros environ e. unfold main, bind, in_examples.
  cbn [speech_examples dot_env]. by rewrite Hrun.
Qed.

(** C8.  With none of the three variables set, [main] goes from the
    merge to the pipeline without raising and without touching [.env]:
    a missing file stays missing, an existing one keeps its content. *)
Theorem no_token_leaves_env_file environ (d d' : dir) e :
  environ !! "HUGGINGFACE_ACCESS_TOKEN" = None →
  environ !! "hf" = None →
  environ !! "HF_TOKEN" = None →
  merge' d = (Ok tt, d') →
  main' environ (World d e) = subprocess_run run_py environ (World d' e).
Proof.
  intros H1 H2 H3 Hrun. rewrite (main_after_merge _ _ _ _ Hrun).
  unfold hf_token, py_or. by rewrite H1, H2, H3.
Qed.

(** C9.  A variable set to the empty string is to the token step what a
    variable that is not set is: with it removed from the environment the
    step leaves the same [.env], and that [.env] is the one [main] starts
    the pipeline with.  An empty HUGGINGFACE_ACCESS_TOKEN passes the
    lookup on to [hf] and HF_TOKEN, an empty [hf] passes it on to
    HF_TOKEN, so that with HUGGINGFACE_ACCESS_TOKEN empty and
    HF_TOKEN=abc123 the line written is the one for [abc123]; when each
    of the three is empty or not set, [.env] is not written. *)
Theorem empty_token_is_unset environ (d d' : dir) e :
  merge' d = (Ok tt, d') →
  (∀ k, environ !! k = Some EmptyString →
     env_after environ e = env_after (delete k environ) e ∧
     main' environ (World d e) =
       subprocess_run run_py environ
         (World d' (env_after (delete k environ) e))) ∧
  (environ !! "HUGGINGFACE_ACCESS_TOKEN" = Some EmptyString →
   hf_token environ = py_or (environ !! "hf") (environ !! "HF_TOKEN")) ∧
  (truthy (environ !! "HUGGINGFACE_ACCESS_TOKEN") = false →
   environ !! "hf" = Some EmptyString →
   hf_token environ = environ !! "HF_TOKEN") ∧
  (environ !! "HUGGINGFACE_ACCESS_TOKEN" = Some EmptyString →
   truthy (environ !! "hf") = false →
   environ !! "HF_TOKEN" = Some "abc123" →
   main' environ (World d e) =
     subprocess_run run_py environ
       (World d' (Some ("huggingface_ACCESS_TOKEN=abc123" +:+ newline)))) ∧
  (truthy (environ !! "HUGGINGFACE_ACCESS_TOKEN") = false →
   truthy (environ !! "hf") = false →
   truthy (environ !! "HF_TOKEN") = false →
   main' environ (World d e) = subprocess_run run_py environ (World d' e)).
Proof.
  intros Hrun. split_and!.
  - intros k Hk. split; [by apply env_after_delete_empty|].
    rewrite (main_hands_over _ _ _ _ Hrun).
    by rewrite (env_after_delete_empty environ k e Hk).
  - intros H1. unfold hf_token. by rewrite H1.
  - intros H1 H2. unfold hf_token, py_or. by rewrite H1, H2.
  - intros H1 H2 H3. rewrite (main_after_merge _ _ _ _ Hrun).
    unfold hf_token, py_or. rewrite H1. cbn. by rewrite H2, H3.
  - intros H1 H2 H3. rewrite (main_after_merge _ _ _ _ Hrun).
    assert (truthy (hf_token environ) = false) as Htok.
    { unfold hf_token, py_or. by rewrite H1, H2, H3. }
    by destruct (hf_token environ) as [[|a t]|].
Qed.

End Main.

End Facts.

(** ** The concrete instance at work *)

Lemma demo_listdir_NoDup d : NoDup (Demo.listdir d).
Proof. apply NoDup_fst_map_to_list. Qed.

Lemma demo_listdir_elem d f : f ∈ Demo.listdir d ↔ is_Some (d !! f).
Proof.
  unfold Demo.listdir. rewrite list_elem_of_fmap. split.
  - intros [[k v] [-> Hin]]. apply elem_of_map_to_list in Hin. by exists v.
  - intros [v Hv]. exists (f, v). split; [done|]. by apply elem_of_map_to_list.
Qed.

Lemma demo_codec_reads_back seg :
  is_Some (Demo.from_file output (Demo.export_wav seg)).
Proof. by exists seg. Qed.

Example merge_mixed :
  Demo.merge_audio_files Demo.mixed
  = (Ok tt, {[ "merged.wav" := File [1; 10; 20] ]}).
Proof. vm_compute. reflexivity. Qed.

Example merge_rerun :
  Demo.merge_audio_files Demo.rerun
  = (Ok tt, {[ "merged.wav" := File [1; 7; 20] ]}).
Proof. vm_compute. reflexivity. Qed.

Example merge_rerun_other_stale :
  Demo.merge_audio_files (<[output := File [1; 8]]> Demo.rerun)
  = (Ok tt, {[ "merged.wav" := File [1; 8; 20] ]}).
Proof. vm_compute. reflexivity. Qed.

Example merge_rerun_without_stale :
  Demo.merge_audio_files (delete output Demo.rerun)
  = (Ok tt, {[ "merged.wav" := File [1; 20] ]}).
Proof. vm_compute. reflexivity. Qed.

Example merge_broken :
  Demo.merge_audio_files Demo.broken
  = (Raise DecodeError, {[ "a.wav" := File [1; 10]; "c.wav" := File [1; 7] ]}).
Proof. vm_compute. reflexivity. Qed.

Example merge_clash :
  Demo.merge_audio_files Demo.clash
  = (Ok tt, {[ "merged.wav" := File [1; 10] ]}).
Proof. vm_compute. reflexivity. Qed.

Lemma merge_leaves_only_merged_witness :
  Demo.merge_audio_files Demo.mixed
    = (Ok tt, {[ "merged.wav" := File [1; 10; 20] ]}) ∧
  ((∀ n, file_at ({[ "merged.wav" := File [1; 10; 20] ]} : gmap string (node (list nat))) n
         = true ↔ n = output) ∧
   (∀ n, n ≠ output → file_at Demo.mixed n = true →
         ({[ "merged.wav" := File [1; 10; 20] ]} : gmap string (node (list nat))) !! n
         = None) ∧
   ((∀ n, Demo.mixed !! n ≠ Some Dir) →
    ∃ c, ({[ "merged.wav" := File [1; 10; 20] ]} : gmap string (node (list nat)))
         = {[ output := File c ]})).
Proof.
  assert (Demo.merge_audio_files Demo.mixed
          = (Ok tt, {[ "merged.wav" := File [1; 10; 20] ]})) as Hrun
    by (vm_compute; reflexivity).
  split; [exact Hrun|].
  exact (merge_leaves_only_merged Demo.from_file Demo.export_wav [] (@app nat)
           Demo.listdir demo_listdir_elem _ _ Hrun).
Defined.

Lemma merge_empty_directory_witness :
  (∀ d f, f ∈ Demo.listdir d ↔ is_Some (d !! f)) ∧
  Demo.merge_audio_files ∅ = (Raise ConcatenationError, ∅) ∧
  ∀ environ e,
    Demo.main environ (World ∅ e) = (Raise ConcatenationError, World ∅ e).
Proof.
  split; [exact demo_listdir_elem|].
  exact (merge_empty_directory Demo.from_file Demo.export_wav [] (@app nat)
           Demo.listdir Demo.no_pipeline demo_listdir_elem).
Defined.

Lemma conversion_failure_aborts_witness :
  ∃ d', Demo.merge_audio_files Demo.broken = (Raise DecodeError, d') ∧
        d' !! "b.mp3" = None ∧
        ∀ n, n ≠ "b.mp3" →
             d' !! n
             = ({[ "a.wav" := File [1; 10]; "b.mp3" := File [0; 20];
                   "c.wav" := File [1; 7] ]} : gmap string (node (list nat))) !! n.
Proof.
  apply (conversion_failure_aborts Demo.from_file Demo.export_wav [] (@app nat)
           Demo.listdir Demo.broken
           {[ "a.wav" := File [1; 10]; "b.mp3" := File [0; 20];
              "c.wav" := File [1; 7] ]}
           {[ "a.wav" := File [1; 10]; "b.mp3" := File [0; 20];
              "c.wav" := File [1; 7] ]}
           ["c.mp3"; "a.mp3"] [] "b.mp3" "b.wav" ["c.wav"; "a.wav"] DecodeError).
  - vm_compute. reflexivity.
  - vm_compute. reflexivity.
  - vm_compute. reflexivity.
  - vm_compute. reflexivity.
  - vm_compute. reflexivity.
  - vm_compute. reflexivity.
Defined.

Lemma cleanup_deletes_existing_skips_missing_witness :
  ∃ d', cleanup ["a.wav"; "a.wav"; "gone.wav"; "merged.wav"] Demo.rerun = (Ok tt, d') ∧
        (∀ f, f ∈ ["a.wav"; "a.wav"; "gone.wav"; "merged.wav"] → f ≠ output →
              d' !! f = None) ∧
        (∀ n, n ∉ ["a.wav"; "a.wav"; "gone.wav"; "merged.wav"] ∨ n = output →
              d' !! n = Demo.rerun !! n).
Proof.
  apply (proj1 cleanup_deletes_existing_skips_missing).
  intros f Hf.
  repeat (apply elem_of_cons in Hf as [->|Hf]); [vm_compute; discriminate..|].
  by apply not_elem_of_nil in Hf.
Defined.

Lemma merge_twice_witness :
  ∃ d2 c seg,
    Demo.merge_audio_files {[ "merged.wav" := File [1; 10; 20] ]} = (Ok tt, d2) ∧
    ({[ "merged.wav" := File [1; 10; 20] ]} : gmap string (node (list nat))) !! output
      = Some (File c) ∧
    Demo.from_file output c = Some seg ∧
    d2 = <[output := File (Demo.export_wav (combine [] (@app nat) [seg]))]>
           {[ "merged.wav" := File [1; 10; 20] ]} ∧
    (∀ n, file_at d2 n = true ↔ n = output).
Proof.
  apply (merge_twice Demo.from_file Demo.export_wav [] (@app nat) Demo.listdir
           demo_listdir_NoDup demo_listdir_elem Demo.mixed).
  - intros seg. exists seg. reflexivity.
  - vm_compute. reflexivity.
Defined.

(** C2, as stated, fails: in a directory holding [a.wav] and the
    [merged.wav] of an earlier run, the samples of the old [merged.wav] are
    the first samples of the new one, so that other old samples give
    another result. *)
Lemma stale_merged_ignored_fails :
  ¬ stale_merged_ignored Demo.from_file Demo.export_wav [] (@app nat) Demo.listdir.
Proof.
  intros Hignored.
  specialize (Hignored Demo.rerun [1; 7] [1; 8] eq_refl).
  change (Demo.merge_audio_files (<[output := File [1; 8]]> Demo.rerun)
          = Demo.merge_audio_files Demo.rerun) in Hignored.
  rewrite merge_rerun, merge_rerun_other_stale in Hignored.
  apply (f_equal (λ r : result unit * gmap string (node (list nat)),
                    r.2 !! "merged.wav")) in Hignored.
  vm_compute in Hignored. discriminate.
Qed.

Lemma stale_merged_is_merged_again_witness :
  ∃ W d1 segs,
    normalize Demo.from_file Demo.export_wav (Demo.listdir Demo.rerun) [] Demo.rerun
      = (Ok W, d1) ∧
    output ∈ concat_inputs Demo.listdir d1 ∧
    ((∀ f, is_Some (Demo.rerun !! f) → Path.is_wav f = false →
           Path.with_suffix f ".wav" ≠ Some output) →
     d1 !! output = Some (File [1; 7])) ∧
    load_all Demo.from_file (concat_inputs Demo.listdir d1) d1 = (Ok segs, d1) ∧
    ({[ "merged.wav" := File [1; 7; 20] ]} : gmap string (node (list nat))) !! output
      = Some (File (Demo.export_wav (combine [] (@app nat) segs))) ∧
    (∀ n, file_at ({[ "merged.wav" := File [1; 7; 20] ]} : gmap string (node (list nat))) n
          = true ↔ n = output).
Proof.
  apply (stale_merged_is_merged_again Demo.from_file Demo.export_wav [] (@app nat)
           Demo.listdir demo_listdir_elem Demo.rerun).
  - vm_compute. reflexivity.
  - vm_compute. reflexivity.
Defined.

Lemma conversion_overwrites_existing_wav_witness :
  "a.wav" = Path.stem "a.mp3" +:+ ".wav" ∧
  (∀ seg W, Demo.from_file "a.mp3" [1; 10] = Some seg →
     visit Demo.from_file Demo.export_wav "a.mp3" W Demo.clash
     = (Ok (W ++ ["a.wav"]),
        delete "a.mp3" (<["a.wav" := File (Demo.export_wav seg)]> Demo.clash))) ∧
  (Demo.merge_audio_files (<["a.wav" := File [1; 99]]> Demo.clash)).1
    = (Demo.merge_audio_files Demo.clash).1 ∧
  ((Demo.merge_audio_files Demo.clash).1 = Ok tt →
   Demo.merge_audio_files (<["a.wav" := File [1; 99]]> Demo.clash)
   = Demo.merge_audio_files Demo.clash).
Proof.
  apply (conversion_overwrites_existing_wav Demo.from_file Demo.export_wav []
           (@app nat) Demo.listdir demo_listdir_elem Demo.clash
           "a.mp3" "a.wav" [1; 10] [1; 20] [1; 99]).
  - vm_compute. reflexivity.
  - vm_compute. reflexivity.
  - vm_compute. reflexivity.
  - vm_compute. reflexivity.
  - vm_compute. reflexivity.
Defined.

Lemma token_priority_and_env_file_witness :
  Demo.main Demo.only_short_form (World Demo.mixed (Some "stale"))
  = subprocess_run Demo.no_pipeline Demo.only_short_form
      (World {[ "merged.wav" := File [1; 10; 20] ]}
             (Some ("huggingface_ACCESS_TOKEN=abc123" +:+ newline))).
Proof.
  apply (token_priority_and_env_file Demo.from_file Demo.export_wav [] (@app nat)
           Demo.listdir Demo.no_pipeline Demo.only_short_form Demo.mixed
           {[ "merged.wav" := File [1; 10; 20] ]} (Some "stale")).
  - vm_compute. reflexivity.
  - vm_compute. reflexivity.
  - vm_compute. reflexivity.
  - vm_compute. reflexivity.
Defined.

Lemma no_token_leaves_env_file_witness :
  Demo.main ∅ (World Demo.mixed (Some "stale"))
  = subprocess_run Demo.no_pipeline ∅
      (World {[ "merged.wav" := File [1; 10; 20] ]} (Some "stale")).
Proof.
  apply (no_token_leaves_env_file Demo.from_file Demo.export_wav [] (@app nat)
           Demo.listdir Demo.no_pipeline ∅ Demo.mixed).
  - vm_compute. reflexivity.
  - vm_compute. reflexivity.
  - vm_compute. reflexivity.
  - vm_compute. reflexivity.
Defined.

Lemma empty_token_is_unset_witness :
  env_after Demo.empty_primary None
    = env_after (delete "HUGGINGFACE_ACCESS_TOKEN" Demo.empty_primary) None ∧
  Demo.main Demo.empty_primary (World Demo.mixed None)
    = subprocess_run Demo.no_pipeline Demo.empty_primary
        (World Demo.merged_only
           (env_after (delete "HUGGINGFACE_ACCESS_TOKEN" Demo.empty_primary) None)).
Proof.
  apply (proj1 (empty_token_is_unset Demo.from_file Demo.export_wav [] (@app nat)
                  Demo.listdir Demo.no_pipeline Demo.empty_primary Demo.mixed
                  Demo.merged_only None ltac:(vm_compute; reflexivity))).
  vm_compute. reflexivity.
Defined.

(** The pipeline runs under the environment of [main]: a pipeline that
    needs HF_TOKEN to be set starts and succeeds with HF_TOKEN empty, where
    no token is written, and fails with HF_TOKEN not set. *)
Example pipeline_inherits_environment :
  (Demo.main_with Demo.wants_token Demo.empty_short_form (World Demo.mixed None)).1
    = Ok tt ∧
  (Demo.main_with Demo.wants_token ∅ (World Demo.mixed None)).1
    = Raise ProcessError.
Proof. split; vm_compute; reflexivity. Qed.

(** ** Further properties of the conversion loop, the cleanup and [main] *)

Section Coverage.

Context {content segment : Type}.
Variable from_file : string → content → option segment.
Variable export_wav : segment → content.
Variable seg_empty : segment.
Variable seg_add : segment → segment → segment.

Local Abbreviation dir := (gmap string (node content)).

Variable listdir : dir → list string.

Local Abbreviation convert' := (convert from_file export_wav).
Local Abbreviation visit' := (visit from_file export_wav).
Local Abbreviation visited' := (visited from_file export_wav).
Local Abbreviation normalize' := (normalize from_file export_wav).
Local Abbreviation merge' :=
  (merge_audio_files from_file export_wav seg_empty seg_add listdir).

(** The directory one iteration leaves, whether it returns or raises: the
    one it found, or that one without the foreign file [f], with or
    without the converted file written. *)
Lemma visit_state (d d1 : dir) f W r :
  visit' f W d = (r, d1) →
  d1 = d ∨
  (file_at d f = true ∧ Path.is_wav f = false ∧
   (d1 = delete f d ∨
    ∃ w c, Path.with_suffix f ".wav" = Some w ∧ d !! w ≠ Some Dir ∧
           d1 = delete f (<[w := File c]> d))).
Proof.
  destruct (file_at d f) eqn:Hf.
  2:{ rewrite visit_skip by done. intros [= _ <-]. by left. }
  destruct (Path.is_wav f) eqn:Hw.
  { rewrite visit_wav by done. intros [= _ <-]. by left. }
  destruct (Path.with_suffix f ".wav") as [w|] eqn:Hs.
  2:{ rewrite visit_value_error by done. intros [= _ <-]. by left. }
  rewrite (visit_convert _ _ d f W w) by done.
  pose proof Hf as Hf'. apply file_at_true in Hf' as [c Hc].
  rewrite (convert_eq _ _ d f w c Hc).
  destruct (from_file f c) as [seg|]; [|intros [= _ <-]; right; by eauto].
  destruct (d !! w) as [[c'|]|] eqn:Hdw; intros [= _ <-]; right;
    split_and!; try done; [right|by left|right];
    exists w, (export_wav seg); by rewrite Hdw.
Qed.

(** What the loop may do to a directory. *)
Lemma visit_frame (d d1 : dir) f W r n :
  visit' f W d = (r, d1) →
  (d1 !! n = Some Dir ↔ d !! n = Some Dir) ∧
  (Path.is_wav n = true → file_at d n = true → file_at d1 n = true) ∧
  (Path.is_wav n = false →
   d1 !! n = d !! n ∨ (d1 !! n = None ∧ n = f ∧ file_at d n = true)).
Proof.
  intros Hv.
  apply visit_state in Hv as [->|(Hf & Hw & [->|(w & c & Hs & Hdw & ->)])].
  - split_and!; auto.
  - pose proof Hf as [cf Hcf]%file_at_true. split_and!.
    + rewrite lookup_delete. case_decide; [subst; by rewrite Hcf|done].
    + intros Hn Hfile. rewrite file_at_delete. case_decide; [congruence|done].
    + intros Hn. rewrite lookup_delete. case_decide; subst; auto.
  - pose proof Hf as [cf Hcf]%file_at_true.
    pose proof (with_suffix_is_wav _ _ Hs) as Hww. split_and!.
    + rewrite lookup_delete, lookup_insert.
      repeat case_decide; subst; try done; by rewrite ?Hcf.
    + intros Hn Hfile. rewrite file_at_delete, file_at_insert.
      repeat case_decide; congruence.
    + intros Hn. rewrite lookup_delete, lookup_insert.
      repeat case_decide; subst; auto; congruence.
Qed.

(** X4.  Whether it returns or raises, the conversion loop leaves every
    subdirectory in place and creates none, removes no regular file that
    has a wav name, and does nothing to an entry without a wav name
    except delete it, which it does only to listed regular files. *)
Theorem loop_frame l W (d d1 : dir) r n :
  normalize' l W d = (r, d1) →
  (d1 !! n = Some Dir ↔ d !! n = Some Dir) ∧
  (Path.is_wav n = true → file_at d n = true → file_at d1 n = true) ∧
  (Path.is_wav n = false →
   d1 !! n = d !! n ∨ (d1 !! n = None ∧ n ∈ l ∧ file_at d n = true)).
Proof.
  revert W d. induction l as [|f l IH]; intros W d Hrun.
  { injection Hrun as _ <-. split_and!; auto. }
  cbn [normalize] in Hrun. unfold bind in Hrun.
  destruct (visit' f W d) as [[W1|e] d0] eqn:Hv.
  - destruct (visit_frame _ _ _ _ _ n Hv) as (Hdir & Hwav & Hother).
    destruct (IH _ _ Hrun) as (IHdir & IHwav & IHother). split_and!.
    + by rewrite IHdir.
    + auto.
    + intros Hn. destruct (IHother Hn) as [Heq|(Hnone & Hin & Hfile)].
      * rewrite Heq. destruct (Hother Hn) as [?|(? & -> & ?)]; [by left|right].
        split_and!; [done|by apply elem_of_cons; left|done].
      * right. split_and!; [done|by apply elem_of_cons; right|].
        destruct (Hother Hn) as [Heq|(Hnone' & _ & _)].
        -- unfold file_at in *. by rewrite <- Heq.
        -- apply file_at_true in Hfile as [c Hc]. congruence.
  - injection Hrun as _ <-.
    destruct (visit_frame _ _ _ _ _ n Hv) as (Hdir & Hwav & Hother).
    split_and!; [done..|]. intros Hn.
    destruct (Hother Hn) as [?|(? & -> & ?)]; [by left|right].
    split_and!; [done|by apply elem_of_cons; left|done].
Qed.

(** X12.  The loop stops at the first iteration that raises: the entries
    listed after it are not visited, and the error and the directory are
    those of the failing prefix. *)
Theorem loop_stops_at_first_error l1 l2 W (d d1 : dir) e :
  normalize from_file export_wav l1 W d = (Raise e, d1) →
  normalize from_file export_wav (l1 ++ l2) W d = (Raise e, d1).
Proof. intros Hrun. by rewrite normalize_app, Hrun. Qed.

(** X9.  A name with the wav suffix onto which no listed foreign name
    converts holds after the loop what it held before, whether the loop
    returns or raises. *)
Theorem wav_file_untouched l W (d d1 : dir) r n :
  normalize' l W d = (r, d1) →
  Path.is_wav n = true →
  (∀ f, f ∈ l → Path.is_wav f = false → Path.with_suffix f ".wav" ≠ Some n) →
  d1 !! n = d !! n.
Proof.
  revert W d. induction l as [|f l IH]; intros W d Hrun Hn Hclash.
  { by injection Hrun as _ <-. }
  cbn [normalize] in Hrun. unfold bind in Hrun.
  assert (∀ d0 r0, visit' f W d = (r0, d0) → d0 !! n = d !! n) as Hstep.
  { intros d0 r0 Hv.
    apply visit_state in Hv as [->|(Hf & Hw & [->|(w & c & Hs & Hdw & ->)])];
      [done| |].
    - rewrite lookup_delete. case_decide; [congruence|done].
    - assert (w ≠ n).
      { intros ->. by apply (Hclash f); [apply elem_of_cons; left|..]. }
      rewrite lookup_delete, lookup_insert. repeat case_decide; congruence. }
  destruct (visit' f W d) as [[W1|e] d0] eqn:Hv.
  - rewrite <- (Hstep _ _ eq_refl). apply (IH _ _ Hrun Hn).
    intros g Hg. apply Hclash, elem_of_cons. by right.
  - injection Hrun as _ <-. by apply (Hstep _ _ eq_refl).
Qed.

Lemma normalize_wav_names l W (d : dir) W' d' n :
  normalize' l W d = (Ok W', d') → n ∈ W' → n ∈ W ∨ Path.is_wav n = true.
Proof.
  revert W d. induction l as [|f l IH]; intros W d Hrun Hn.
  { injection Hrun as <- <-. by left. }
  cbn [normalize] in Hrun.
  apply bind_inv_ok in Hrun as (W1 & d0 & Hv & Hrun). apply visit_ok in Hv.
  destruct (IH _ _ Hrun Hn) as [Hn1|?]; [|by right].
  destruct (visited_working_set _ _ _ _ _ _ _ _ Hv Hn1) as [?|[_ ?]]; auto.
Qed.

(** X7.  On a directory whose regular files all have a wav name, in any
    letter case, the loop converts and deletes nothing: it returns with
    the directory as it was, and the working set is the regular files in
    listing order. *)
Theorem wav_directory_unchanged_by_loop (d : dir) :
  (∀ n, file_at d n = true → Path.is_wav n = true) →
  normalize' (listdir d) [] d = (Ok (List.filter (file_at d) (listdir d)), d).
Proof. intros Hwav. by rewrite (normalize_all_wav _ _ (listdir d) [] d Hwav). Qed.

(** The working set the loop builds from any starting list. *)
Lemma normalize_wav_files l : ∀ W (d d' : dir) W',
  NoDup l → (∀ n, n ∈ l → is_Some (d !! n)) →
  normalize' l W d = (Ok W', d') →
  W' = W ++ map wav_name (List.filter (file_at d) l).
Proof.
  induction l as [|f l IH]; intros W d d' W' Hnd Hin Hrun.
  { injection Hrun as <- <-. cbn. by rewrite app_nil_r. }
  apply NoDup_cons in Hnd as [Hf Hnd]. cbn [normalize] in Hrun.
  apply bind_inv_ok in Hrun as (W1 & d0 & Hv & Hrun). apply visit_ok in Hv.
  assert (∀ n, n ∈ l → is_Some (d !! n)) as Hin'.
  { intros n Hn. apply Hin, elem_of_cons. by right. }
  assert (∀ n, n ∈ l → file_at d0 n = file_at d n ∧ is_Some (d0 !! n)) as Hsame.
  { intros n Hn. assert (n ≠ f) as Hne by (by intros ->).
    destruct Hv as [| |w c seg Hw Hs Hc Hdec Hdw]; [by auto..|].
    rewrite file_at_delete, file_at_insert, lookup_delete, lookup_insert.
    repeat case_decide; subst; try done; [|by auto].
    split; [|by eexists]. destruct (Hin' _ Hn) as [[c'|] Hc']; [|done].
    symmetry. apply file_at_true. eauto. }
  assert (List.filter (file_at d0) l = List.filter (file_at d) l) as Hfilter.
  { apply filter_ext_in. intros n Hn%list_elem_of_In. by apply Hsame. }
  rewrite (IH W1 d0 d' W' Hnd (λ n Hn, proj2 (Hsame n Hn)) Hrun), Hfilter.
  cbn [List.filter].
  destruct Hv as [Hfile|Hfile Hw|w c seg Hw Hs Hc Hdec Hdw].
  - by rewrite Hfile.
  - rewrite Hfile. cbn [map]. unfold wav_name at 2. rewrite Hw.
    by rewrite <- app_assoc.
  - assert (file_at d f = true) as -> by (apply file_at_true; eauto).
    cbn [map]. unfold wav_name at 2. rewrite Hw.
    unfold Path.with_suffix in Hs. destruct f; [done|]. injection Hs as <-.
    by rewrite <- app_assoc.
Qed.

(** X10.  Once [cleanup] has returned, running it again on the same
    working set returns with the directory unchanged. *)
Theorem cleanup_idempotent W (d d' : dir) :
  cleanup W d = (Ok tt, d') → cleanup W d' = (Ok tt, d').
Proof.
  intros Hrun. pose proof (cleanup_ok_inv _ _ _ Hrun) as Hd'.
  assert (∀ f, f ∈ W → f = output ∨ d' !! f = None) as Hgone.
  { intros f Hf. destruct (decide (f = output)) as [|Hne]; [by left|right].
    rewrite Hd'. unfold cleaned. by rewrite decide_True. }
  clear Hrun Hd'. induction W as [|f W IH]; [done|].
  rewrite cleanup_cons.
  assert (∀ g, g ∈ W → g = output ∨ d' !! g = None) as HW.
  { intros g Hg. apply Hgone, elem_of_cons. by right. }
  destruct (String.eqb_spec f output) as [->|Hne]; [by apply IH|].
  destruct (Hgone f) as [?|Hf]; [by apply elem_of_cons; left|done|].
  rewrite Hf. by apply IH.
Qed.

(** The names already recorded stay recorded, and a regular file the loop
    leaves behind is recorded or was there, unlisted, from the start. *)
Lemma loop_records_files l : ∀ W (d : dir) W' d' n,
  normalize' l W d = (Ok W', d') →
  (n ∈ W → n ∈ W') ∧
  (file_at d' n = true → n ∈ W' ∨ (file_at d n = true ∧ n ∉ l)).
Proof.
  induction l as [|f l IH]; intros W d W' d' n Hrun.
  { injection Hrun as <- <-. split; [done|]. intros Hn. right.
    split; [done|]. apply not_elem_of_nil. }
  cbn [normalize] in Hrun.
  apply bind_inv_ok in Hrun as (W1 & d0 & Hv & Hrun). apply visit_ok in Hv.
  destruct (IH _ _ _ _ n Hrun) as [IHmono IHfile].
  assert (n ∈ W → n ∈ W1) as Hmono.
  { destruct Hv; [done|..]; intros Hn; apply elem_of_app; by left. }
  split; [by auto|]. intros Hn.
  destruct (IHfile Hn) as [?|[Hn0 Hnl]]; [by left|].
  destruct Hv as [Hfile|Hfile Hw|w c seg Hw Hs Hc Hdec Hdw].
  - right. split; [done|]. apply not_elem_of_cons. split; [|done].
    intros ->. congruence.
  - destruct (decide (n = f)) as [->|Hne].
    + left. apply IHmono, elem_of_app. right. by apply elem_of_cons; left.
    + right. split; [done|]. by apply not_elem_of_cons.
  - rewrite file_at_delete, file_at_insert in Hn0.
    destruct (decide (f = n)) as [|Hne]; [done|].
    destruct (decide (w = n)) as [->|Hwn].
    + left. apply IHmono, elem_of_app. right. by apply elem_of_cons; left.
    + right. split; [done|]. apply not_elem_of_cons. split; [congruence|done].
Qed.

Section Listing.

Hypothesis listdir_NoDup : ∀ d, NoDup (listdir d).
Hypothesis listdir_elem : ∀ d f, f ∈ listdir d ↔ is_Some (d !! f).

(** X5.  When the loop returns, the working set is exactly the set of
    regular files of the directory, and each of them has a wav name: no
    file in another format is left for the concatenation. *)
Theorem loop_leaves_wav_files (d d1 : dir) W :
  normalize' (listdir d) [] d = (Ok W, d1) →
  (∀ n, file_at d1 n = true ↔ n ∈ W) ∧
  (∀ n, n ∈ W → Path.is_wav n = true).
Proof using listdir_elem.
  intros Hrun. split.
  - intros n. split.
    + intros Hn.
      destruct (proj2 (loop_records_files _ _ _ _ _ n Hrun) Hn)
        as [?|[Hfile Hnl]]; [done|].
      destruct Hnl. apply listdir_elem.
      apply file_at_true in Hfile as [c ->]. by eexists.
    + intros Hn.
      destruct (normalize_working_set _ _ _ _ _ _ _ _ Hrun Hn) as [Hnil|?];
        [by apply not_elem_of_nil in Hnil|done].
  - intros n Hn. destruct (normalize_wav_names _ _ _ _ _ _ Hrun Hn) as [Hnil|?];
      [by apply not_elem_of_nil in Hnil|done].
Qed.

(** X6.  When the loop returns, the working set lists the regular files
    of the directory it started from, in listing order, each under its
    wav name; two files that differ in their suffix only give the same
    name twice. *)
Theorem working_set_in_listing_order (d d1 : dir) W :
  normalize' (listdir d) [] d = (Ok W, d1) →
  W = map wav_name (List.filter (file_at d) (listdir d)).
Proof using listdir_NoDup listdir_elem.
  intros Hrun.
  apply (normalize_wav_files (listdir d) [] d d1 W); [apply listdir_NoDup| |done].
  intros n Hn. by apply listdir_elem.
Qed.

(** An entry without a wav name that is not listed is not touched. *)
Lemma normalize_foreign_unlisted l W (d d1 : dir) r n :
  normalize' l W d = (r, d1) → Path.is_wav n = false → n ∉ l →
  d1 !! n = d !! n.
Proof.
  revert W d. induction l as [|f l IH]; intros W d Hrun Hn Hnl.
  { by injection Hrun as _ <-. }
  apply not_elem_of_cons in Hnl as [Hne Hnl].
  cbn [normalize] in Hrun. unfold bind in Hrun.
  destruct (visit' f W d) as [[W1|e] d0] eqn:Hv.
  - rewrite (IH _ _ Hrun Hn Hnl).
    destruct (visit_frame _ _ _ _ _ n Hv) as (_ & _ & Hother).
    by destruct (Hother Hn) as [?|(_ & ? & _)].
  - injection Hrun as _ <-.
    destruct (visit_frame _ _ _ _ _ n Hv) as (_ & _ & Hother).
    by destruct (Hother Hn) as [?|(_ & ? & _)].
Qed.

(** X8.  When the loop returns, a foreign regular file [f] is gone and its
    wav name holds the export of what [f] decoded to, provided no other
    listed foreign name converts to the same wav name. *)
Theorem converted_file_holds_converted_audio (d d1 : dir) W f w c :
  normalize' (listdir d) [] d = (Ok W, d1) →
  d !! f = Some (File c) → Path.is_wav f = false →
  Path.with_suffix f ".wav" = Some w →
  (∀ g, g ∈ listdir d → g ≠ f → Path.is_wav g = false →
        Path.with_suffix g ".wav" ≠ Some w) →
  ∃ seg, from_file f c = Some seg ∧
         d1 !! w = Some (File (export_wav seg)) ∧
         d1 !! f = None.
Proof using listdir_NoDup listdir_elem.
  intros Hrun Hc Hf Hs Hclash.
  assert (f ∈ listdir d) as Hin by (apply listdir_elem; by rewrite Hc).
  apply list_elem_of_split in Hin as (l1 & l2 & Hl).
  pose proof (listdir_NoDup d) as Hnd. rewrite Hl in Hnd, Hrun, Hclash.
  apply NoDup_app in Hnd as (_ & Hl1 & [Hl2 _]%NoDup_cons).
  rewrite normalize_app in Hrun.
  destruct (normalize' l1 [] d) as [[W1|e] da] eqn:Hpre; [|done].
  assert (da !! f = Some (File c)) as Hca.
  { rewrite (normalize_foreign_unlisted _ _ _ _ _ f Hpre Hf); [done|].
    intros Hin. destruct (Hl1 f Hin). by apply elem_of_cons; left. }
  cbn [normalize] in Hrun.
  apply bind_inv_ok in Hrun as (W2 & db & Hv & Hrest).
  assert (file_at da f = true) as Hfile by (apply file_at_true; eauto).
  rewrite (visit_convert _ _ da f W1 w Hfile Hf Hs) in Hv.
  rewrite (convert_eq _ _ da f w c Hca) in Hv.
  destruct (from_file f c) as [seg|]; [|done]. exists seg. split; [done|].
  assert (db = delete f (<[w := File (export_wav seg)]> da)) as ->.
  { destruct (da !! w) as [[?|]|]; [|done|]; by injection Hv as _ <-. }
  pose proof (with_suffix_is_wav _ _ Hs) as Hw.
  assert (w ≠ f) as Hwf by congruence.
  split.
  - rewrite (normalize_untouched _ _ _ _ _ _ _ w Hrest Hw).
    + rewrite lookup_delete_ne, lookup_insert_eq; done.
    + intros g Hg Hgw. apply Hclash; [|by intros ->|done].
      apply elem_of_app. right. by apply elem_of_cons; right.
  - rewrite (normalize_foreign_unlisted _ _ _ _ _ f Hrest Hf Hl2).
    apply lookup_delete_eq.
Qed.

End Listing.

Section Main.

Variable run_py : gmap string string → @world content → Z * @world content.

Local Abbreviation main' :=
  (main from_file export_wav seg_empty seg_add listdir run_py).

Lemma main_starts_pipeline environ (d d1 : dir) e :
  merge' d = (Ok tt, d1) →
  main' environ (World d e) =
    subprocess_run run_py environ (World d1 (env_after environ e)).
Proof.
  intros Hrun. unfold main, bind at 1, in_examples, env_after.
  cbn [speech_examples dot_env]. rewrite Hrun.
  by destruct (hf_token environ) as [[|a t]|].
Qed.

(** X1.  When [merge_audio_files] raises, [main] raises the same error at
    once: [.env] is as it was, also with a token in the environment, the
    examples directory is as the merge left it, and the pipeline is not
    started. *)
Theorem main_stops_when_merge_fails environ (d d1 : dir) e err :
  merge_audio_files from_file export_wav seg_empty seg_add listdir d
    = (Raise err, d1) →
  main from_file export_wav seg_empty seg_add listdir run_py environ (World d e)
    = (Raise err, World d1 e).
Proof.
  intros Hrun. unfold main, bind, in_examples.
  cbn [speech_examples dot_env]. by rewrite Hrun.
Qed.

(** X2.  [main] returns normally exactly when the merge returns normally
    and the pipeline, started after the token step, exits with status 0. *)
Theorem main_returns_iff environ (d : dir) e :
  (main' environ (World d e)).1 = Ok tt ↔
  ∃ d1, merge' d = (Ok tt, d1) ∧
        (run_py environ (World d1 (env_after environ e))).1 = 0%Z.
Proof.
  destruct (merge' d) as [[[]|err] d1] eqn:Hrun.
  - rewrite (main_starts_pipeline environ d d1 e Hrun). unfold subprocess_run.
    destruct (run_py environ (World d1 (env_after environ e))) as [rc w'] eqn:Hpy.
    split.
    + intros Hok. exists d1. split; [done|]. rewrite Hpy. cbn in *.
      destruct (rc =? 0)%Z eqn:Hrc; [by apply Z.eqb_eq|done].
    + intros (d2 & [= <-] & Hrc). rewrite Hpy in Hrc. cbn in *. by rewrite Hrc.
  - assert (main' environ (World d e) = (Raise err, World d1 e)) as ->.
    { unfold main, bind, in_examples. cbn [speech_examples dot_env].
      by rewrite Hrun. }
    split; [done|]. by intros (d2 & [=] & _).
Qed.


End Main.

End Coverage.

(** The wav test does not look at letter case. *)

Lemma lower_ascii_dot c :
  Ascii.eqb (Path.lower_ascii c) "."%char = Ascii.eqb c "."%char.
Proof. destruct c as [[] [] [] [] [] [] [] []]; reflexivity. Qed.

Lemma lower_ascii_idem c :
  Path.lower_ascii (Path.lower_ascii c) = Path.lower_ascii c.
Proof. destruct c as [[] [] [] [] [] [] [] []]; reflexivity. Qed.

Lemma lower_idem s : Path.lower (Path.lower s) = Path.lower s.
Proof.
  induction s as [|c s IH]; [done|]. cbn [Path.lower].
  by rewrite lower_ascii_idem, IH.
Qed.

Lemma rsplit_dot_lower s :
  Path.rsplit_dot (Path.lower s) =
    match Path.rsplit_dot s with
    | Some (a, b) => Some (Path.lower a, Path.lower b)
    | None => None
    end.
Proof.
  induction s as [|c s IH]; [done|]. cbn [Path.lower Path.rsplit_dot].
  rewrite IH. destruct (Path.rsplit_dot s) as [[a b]|]; [done|].
  rewrite lower_ascii_dot. by destruct (Ascii.eqb c "."%char).
Qed.

Lemma suffix_lower s : Path.suffix (Path.lower s) = Path.lower (Path.suffix s).
Proof.
  unfold Path.suffix. rewrite rsplit_dot_lower.
  by destruct (Path.rsplit_dot s) as [[[|c a] [|e b]]|].
Qed.

(** X11.  Two names that differ in letter case only are the same to the
    loop's suffix test: both are converted or both are taken as wav. *)
Theorem is_wav_case_insensitive f g :
  Path.lower f = Path.lower g → Path.is_wav f = Path.is_wav g.
Proof.
  intros Hfg. unfold Path.is_wav.
  rewrite <- (lower_idem (Path.suffix f)), <- (lower_idem (Path.suffix g)).
  by rewrite <- !suffix_lower, Hfg.
Qed.

(** ** The further properties at work *)

Lemma demo_listdir_mixed : Demo.listdir Demo.mixed = ["a.mp3"; "b.wav"].
Proof. vm_compute. reflexivity. Qed.

Lemma demo_listdir_rerun : Demo.listdir Demo.rerun = ["merged.wav"; "a.wav"].
Proof. vm_compute. reflexivity. Qed.

Lemma demo_listdir_broken : Demo.listdir Demo.broken = ["c.mp3"; "a.mp3"; "b.mp3"].
Proof. vm_compute. reflexivity. Qed.

Lemma main_stops_when_merge_fails_witness :
  Demo.main Demo.only_short_form (World Demo.broken None)
  = (Raise DecodeError, World Demo.broken_left None).
Proof.
  apply (main_stops_when_merge_fails Demo.from_file Demo.export_wav [] (@app nat)
           Demo.listdir Demo.no_pipeline Demo.only_short_form Demo.broken
           Demo.broken_left None DecodeError).
  vm_compute. reflexivity.
Defined.

Lemma main_returns_iff_witness :
  (Demo.main Demo.only_short_form (World Demo.mixed None)).1 = Ok tt.
Proof.
  apply (proj2 (main_returns_iff Demo.from_file Demo.export_wav [] (@app nat)
                  Demo.listdir Demo.no_pipeline Demo.only_short_form Demo.mixed None)).
  exists Demo.merged_only. split; vm_compute; reflexivity.
Defined.


Lemma loop_frame_witness :
  (Demo.broken_left !! "a.mp3" = Some Dir ↔ Demo.broken !! "a.mp3" = Some Dir) ∧
  (Path.is_wav "a.mp3" = true → file_at Demo.broken "a.mp3" = true →
   file_at Demo.broken_left "a.mp3" = true) ∧
  (Path.is_wav "a.mp3" = false →
   Demo.broken_left !! "a.mp3" = Demo.broken !! "a.mp3" ∨
   (Demo.broken_left !! "a.mp3" = None ∧
    "a.mp3" ∈ ["c.mp3"; "a.mp3"; "b.mp3"] ∧ file_at Demo.broken "a.mp3" = true)).
Proof.
  apply (loop_frame Demo.from_file Demo.export_wav ["c.mp3"; "a.mp3"; "b.mp3"] []
           Demo.broken Demo.broken_left (Raise DecodeError) "a.mp3").
  vm_compute. reflexivity.
Defined.

Lemma loop_stops_at_first_error_witness :
  normalize Demo.from_file Demo.export_wav
    (["c.mp3"; "a.mp3"; "b.mp3"] ++ ["late.mp3"]) [] Demo.broken
  = (Raise DecodeError, Demo.broken_left).
Proof.
  apply (loop_stops_at_first_error Demo.from_file Demo.export_wav).
  vm_compute. reflexivity.
Defined.

Lemma wav_file_untouched_witness :
  Demo.mixed_converted !! "b.wav" = Demo.mixed !! "b.wav".
Proof.
  apply (wav_file_untouched Demo.from_file Demo.export_wav ["a.mp3"; "b.wav"] []
           Demo.mixed Demo.mixed_converted (Ok ["a.wav"; "b.wav"]) "b.wav").
  - vm_compute. reflexivity.
  - vm_compute. reflexivity.
  - intros f Hf Hw.
    apply elem_of_cons in Hf as [->|Hf]; [vm_compute; discriminate|].
    apply elem_of_cons in Hf as [->|Hf]; [vm_compute in Hw; discriminate|].
    by apply not_elem_of_nil in Hf.
Defined.

Lemma wav_directory_unchanged_by_loop_witness :
  normalize Demo.from_file Demo.export_wav (Demo.listdir Demo.rerun) [] Demo.rerun
  = (Ok (List.filter (file_at Demo.rerun) (Demo.listdir Demo.rerun)), Demo.rerun).
Proof.
  apply (wav_directory_unchanged_by_loop Demo.from_file Demo.export_wav Demo.listdir).
  intros n Hn.
  assert (n ∈ Demo.listdir Demo.rerun) as Hin.
  { apply demo_listdir_elem. apply file_at_true in Hn as [c ->]. by eexists. }
  rewrite demo_listdir_rerun in Hin.
  apply elem_of_cons in Hin as [->|Hin]; [vm_compute; reflexivity|].
  apply elem_of_cons in Hin as [->|Hin]; [vm_compute; reflexivity|].
  by apply not_elem_of_nil in Hin.
Defined.

Lemma cleanup_idempotent_witness :
  cleanup ["a.wav"; "b.wav"] ({[ "merged.wav" := File [1; 7] ]} : gmap string (node (list nat)))
  = (Ok tt, {[ "merged.wav" := File [1; 7] ]}).
Proof.
  apply (cleanup_idempotent ["a.wav"; "b.wav"] Demo.rerun).
  vm_compute. reflexivity.
Defined.

Lemma loop_leaves_wav_files_witness :
  (∀ n, file_at Demo.mixed_converted n = true ↔ n ∈ ["a.wav"; "b.wav"]) ∧
  (∀ n, n ∈ ["a.wav"; "b.wav"] → Path.is_wav n = true).
Proof.
  apply (loop_leaves_wav_files Demo.from_file Demo.export_wav Demo.listdir
           demo_listdir_elem Demo.mixed).
  vm_compute. reflexivity.
Defined.

Lemma working_set_in_listing_order_witness :
  ["a.wav"; "a.wav"]
  = map wav_name (List.filter (file_at Demo.clash) (Demo.listdir Demo.clash)).
Proof.
  apply (working_set_in_listing_order Demo.from_file Demo.export_wav Demo.listdir
           demo_listdir_NoDup demo_listdir_elem Demo.clash
           {[ "a.wav" := File [1; 10] ]}).
  vm_compute. reflexivity.
Defined.

Lemma converted_file_holds_converted_audio_witness :
  ∃ seg, Demo.from_file "a.mp3" [1; 10] = Some seg ∧
         Demo.mixed_converted !! "a.wav" = Some (File (Demo.export_wav seg)) ∧
         Demo.mixed_converted !! "a.mp3" = None.
Proof.
  apply (converted_file_holds_converted_audio Demo.from_file Demo.export_wav
           Demo.listdir demo_listdir_NoDup demo_listdir_elem
           Demo.mixed Demo.mixed_converted ["a.wav"; "b.wav"]).
  - vm_compute. reflexivity.
  - vm_compute. reflexivity.
  - vm_compute. reflexivity.
  - vm_compute. reflexivity.
  - intros g Hg Hne Hw. rewrite demo_listdir_mixed in Hg.
    apply elem_of_cons in Hg as [->|Hg]; [done|].
    apply elem_of_cons in Hg as [->|Hg]; [vm_compute in Hw; discriminate|].
    by apply not_elem_of_nil in Hg.
Defined.

Lemma is_wav_case_insensitive_witness :
  Path.is_wav "Take1.WAV" = Path.is_wav "take1.wav".
Proof. apply is_wav_case_insensitive. vm_compute. reflexivity. Defined.
